(** * AMQP Proton demo programs: handlers as state machines

    A shallow embedding of the messaging handlers of the example
    programs (send_across_threads.cpp, send_lots.cpp, send_lots_tls.cpp,
    send_lots_leaky.cpp, send_receive_failover.cpp, receive_client_ack.cpp,
    container_per_thread.cpp, server.cpp), followed by the properties
    proved about them.  Each handler class becomes a record of its member
    variables; each callback becomes a function on that record and on the
    part of the library state it touches. *)

From Stdlib Require Import ZArith Lia List Bool.
From stdpp Require Import base option list gmap strings.

Local Open Scope string_scope.
Local Open Scope list_scope.

(** ** send_across_threads.cpp : MyHandler *)

Module SendAcrossThreads.

(** The functor put on the work queue at line 222,
    [[=]() { this->sender.send (msg); }]: the message is captured by value. *)
Inductive closure :=
| SenderSend (msg : string).

(** Who executes a step: the thread running [container.run()], or one of the
    threads calling [send()] from outside. *)
Inductive thread :=
| Container
| Foreground (t : nat).

(** Member variables of MyHandler that are read or written after construction. *)
Inductive field :=
| f_sender
| f_work_queue
| f_current_sender_credit
| f_error_raised.

(** What a step does to the members, the mutex [lock], the condition variable
    [ready_to_send] and the work queue, in program order. *)
Inductive event :=
| Acquire
| Release
| Wait
| NotifyAll
| Read (f : field)
| Write (f : field)
| Add (c : closure)
| Throw.

(** Where a foreground thread stands inside [send (s)]. *)
Inductive pc :=
| AtLock (msg : string)      (* line 196, before the unique_lock is taken *)
| AtWhile (msg : string)     (* line 202, about to evaluate the loop condition *)
| AtWait (msg : string)      (* line 206, about to call wait(), mutex still held *)
| Waiting (msg : string)     (* line 206, inside wait(), not yet notified *)
| Notified (msg : string)    (* line 206, notified, wait() must retake the mutex *)
| AtIf (msg : string)        (* line 214, the block holding the lock was left *)
| Returned
| Thrown                     (* std::runtime_error, line 216 *)
| Crashed.                   (* work_queue->add through the null pointer *)

#[global] Instance thread_eq_dec : EqDecision thread.
Proof. solve_decision. Defined.

(** The handler's members together with the mutex owner, the callers of
    [send] and the messages the container has handed to [sender.send].
    [work_queue = None] is the null pointer of the constructor; [Some q] points
    to the sender's queue, holding the closures [q], oldest first. *)
Record state := mk_state {
  sender : bool;
  work_queue : option (list closure);
  current_sender_credit : Z;
  error_raised : bool;
  lock : option thread;
  callers : gmap nat pc;
  transfers : list string
}.

(** MyHandler::MyHandler, lines 89-98. *)
Definition init : state :=
  {| sender := false; work_queue := None; current_sender_credit := 0;
     error_raised := false; lock := None; callers := ∅; transfers := [] |}.

Definition set_lock (o : option thread) (s : state) : state :=
  mk_state (sender s) (work_queue s) (current_sender_credit s) (error_raised s)
           o (callers s) (transfers s).

Definition set_callers (c : gmap nat pc) (s : state) : state :=
  mk_state (sender s) (work_queue s) (current_sender_credit s) (error_raised s)
           (lock s) c (transfers s).

Definition set_pc (t : nat) (p : pc) (s : state) : state :=
  set_callers (<[t := p]> (callers s)) s.

Definition set_work_queue (q : option (list closure)) (s : state) : state :=
  mk_state (sender s) q (current_sender_credit s) (error_raised s)
           (lock s) (callers s) (transfers s).

(** [ready_to_send.notify_all ()]: every thread blocked in wait() is woken. *)
Definition wake (p : pc) : pc :=
  match p with
  | Waiting m => Notified m
  | _ => p
  end.

Definition notify_all (s : state) : state :=
  set_callers (wake <$> callers s) s.

(** on_sender_open, lines 125-131.  The lock_guard needs the mutex free. *)
Definition on_sender_open (s : state) : option (state * list event) :=
  match lock s with
  | Some _ => None
  | None =>
      Some (mk_state true
              (Some (default [] (work_queue s)))
              (current_sender_credit s) (error_raised s)
              None (callers s) (transfers s),
            [Acquire; Write f_sender; Write f_work_queue; Release])
  end.

(** on_sendable, lines 158-168; [credit] is what [s.credit ()] returns. *)
Definition on_sendable (credit : Z) (s : state) : option (state * list event) :=
  match lock s with
  | Some _ => None
  | None =>
      let s1 := notify_all s in
      Some (mk_state (sender s1) (work_queue s1) credit (error_raised s1)
              None (callers s1) (transfers s1),
            [Acquire; NotifyAll; Write f_current_sender_credit; Release])
  end.

(** on_error, lines 176-185: no lock is taken. *)
Definition on_error (s : state) : option (state * list event) :=
  let s1 := mk_state (sender s) (work_queue s) (current_sender_credit s) true
                     (lock s) (callers s) (transfers s) in
  Some (notify_all s1, [Write f_error_raised; NotifyAll]).

(** Modelled from the spec: the draining of the work queue, which the
    container does and the sources leave to it (spec 4.6: "a thread-safe queue
    of deferred closures, drained only by the worker thread currently owning
    that connection"; spec 5: "the work queue's FIFO discipline per queue").
    The oldest closure is taken off the queue and run; what it runs is the
    body written at line 222, [this->sender.send (msg)]. *)
Definition run_closure (s : state) : option (state * list event) :=
  match work_queue s with
  | Some (SenderSend msg :: q) =>
      Some (mk_state (sender s) (Some q) (current_sender_credit s)
              (error_raised s) (lock s) (callers s) (transfers s ++ [msg]),
            [Read f_sender])
  | _ => None
  end.

(** The loop condition of line 202,
    [!work_queue && (current_sender_credit == 0 && !error_raised)]. *)
Definition loop_condition (s : state) : bool :=
  match work_queue s with
  | Some _ => false
  | None => (current_sender_credit s =? 0)%Z && negb (error_raised s)
  end.

(** The members line 202 reads, with C++'s left-to-right short circuit. *)
Definition loop_condition_reads (s : state) : list event :=
  Read f_work_queue ::
  match work_queue s with
  | Some _ => []
  | None =>
      Read f_current_sender_credit ::
      (if (current_sender_credit s =? 0)%Z then [Read f_error_raised] else [])
  end.

(** A thread may call [send] when it is not inside a call already. *)
Definition can_call (t : nat) (s : state) : bool :=
  match callers s !! t with
  | None | Some Returned | Some Thrown => true
  | Some _ => false
  end.

Definition call_send (t : nat) (msg : string) (s : state)
  : option (state * list event) :=
  if can_call t s then Some (set_pc t (AtLock msg) s, []) else None.

(** One scheduling quantum of thread [t] inside [send], lines 190-224: taking
    the mutex; testing the loop condition; calling wait(), which gives the
    mutex up; taking the mutex again after a wake-up; and, once the locked
    block is left, the test of line 214 with the throw or the enqueueing that
    follows it.  Other threads, and on_error in particular, can move between
    any two quanta. *)
Definition send (t : nat) (s : state) : option (state * list event) :=
  match callers s !! t with
  | Some (AtLock m) | Some (Notified m) =>
      match lock s with
      | None => Some (set_pc t (AtWhile m) (set_lock (Some (Foreground t)) s),
                      [Acquire])
      | Some _ => None
      end
  | Some (AtWhile m) =>
      if loop_condition s
      then Some (set_pc t (AtWait m) s, loop_condition_reads s)
      else Some (set_pc t (AtIf m) (set_lock None s),
                 loop_condition_reads s ++ [Release])
  | Some (AtWait m) =>
      Some (set_pc t (Waiting m) (set_lock None s), [Wait])
  | Some (AtIf m) =>
      if error_raised s
      then Some (set_pc t Thrown s, [Read f_error_raised; Throw])
      else
        match work_queue s with
        | Some q =>
            Some (set_pc t Returned
                    (set_work_queue (Some (q ++ [SenderSend m])) s),
                  [Read f_error_raised; Read f_work_queue; Add (SenderSend m)])
        | None =>
            Some (set_pc t Crashed s, [Read f_error_raised; Read f_work_queue])
        end
  | _ => None
  end.

(** std::condition_variable::wait may return without a notification; the
    loop of line 202 then tests its condition again. *)
Definition spurious_wake (t : nat) (s : state) : option (state * list event) :=
  match callers s !! t with
  | Some (Waiting m) => Some (set_pc t (Notified m) s, [])
  | _ => None
  end.

(** What can happen next: a callback on the container thread, or a move of a
    foreground thread. *)
Inductive action :=
| OnSenderOpen
| OnSendable (credit : Z)
| OnError
| RunClosure
| CallSend (t : nat) (msg : string)
| Resume (t : nat)
| SpuriousWake (t : nat).

Definition actor (a : action) : thread :=
  match a with
  | CallSend t _ | Resume t | SpuriousWake t => Foreground t
  | _ => Container
  end.

Definition step (a : action) (s : state) : option (state * list event) :=
  match a with
  | OnSenderOpen => on_sender_open s
  | OnSendable c => on_sendable c s
  | OnError => on_error s
  | RunClosure => run_closure s
  | CallSend t m => call_send t m s
  | Resume t => send t s
  | SpuriousWake t => spurious_wake t s
  end.

(** A schedule is run action by action; [None] when an action is not enabled
    (its thread is blocked). *)
Fixpoint exec (sched : list action) (s : state) : option state :=
  match sched with
  | [] => Some s
  | a :: rest =>
      match step a s with
      | Some (s', _) => exec rest s'
      | None => None
      end
  end.

(** A whole call of [send] by [t] with nobody else moving in between. *)
Definition send_alone (t : nat) (msg : string) : list action :=
  [CallSend t msg; Resume t; Resume t; Resume t].

(** The condition the comment of lines 197-201 asks the wait to end on: the
    work queue exists, and there is credit or an error has been raised. *)
Definition may_proceed (s : state) : bool :=
  match work_queue s with
  | Some _ => (0 <? current_sender_credit s)%Z || error_raised s
  | None => false
  end.




(** Lock discipline of one step: every read or write of a member selected by
    [guarded] happens between an [Acquire] and the next [Release] or [Wait];
    [held] tells whether the acting thread owns the mutex when the step starts. *)
Fixpoint under_lock (guarded : field -> bool) (held : bool) (evs : list event)
  : bool :=
  match evs with
  | [] => true
  | Acquire :: rest => under_lock guarded true rest
  | Release :: rest | Wait :: rest => under_lock guarded false rest
  | Read f :: rest | Write f :: rest =>
      implb (guarded f) held && under_lock guarded held rest
  | _ :: rest => under_lock guarded held rest
  end.

Definition holds (th : thread) (s : state) : bool :=
  bool_decide (lock s = Some th).

Definition disciplined (guarded : field -> bool) (a : action) (s : state)
  : bool :=
  match step a s with
  | Some (_, evs) => under_lock guarded (holds (actor a) s) evs
  | None => true
  end.

(** The counter and the flag the lock and condition variable are there for. *)
Definition credit_and_flag (f : field) : bool :=
  match f with
  | f_current_sender_credit | f_error_raised => true
  | _ => false
  end.

Definition credit_only (f : field) : bool :=
  match f with
  | f_current_sender_credit => true
  | _ => false
  end.

Definition every_field (f : field) : bool := true.

Definition writes_member (e : event) : bool :=
  match e with
  | Write _ => true
  | _ => false
  end.

Definition touches_sender (e : event) : bool :=
  match e with
  | Read f_sender | Write f_sender => true
  | _ => false
  end.

(** An action of some thread other than foreground thread [t]. *)
Definition not_by (t : nat) (a : action) : bool :=
  negb (bool_decide (actor a = Foreground t)).

(** The positions inside the block of lines 194-209, where the unique_lock
    is alive and locked. *)
Definition in_locked_block (p : pc) : bool :=
  match p with
  | AtWhile _ | AtWait _ => true
  | _ => false
  end.

(** A thread inside the locked block owns the mutex. *)
Definition lock_inv (s : state) : Prop :=
  forall t p, callers s !! t = Some p -> in_locked_block p = true ->
              lock s = Some (Foreground t).




End SendAcrossThreads.

(** ** The library as the handlers see it *)

Module Proton.

(** Modelled from the spec: the codec is an external collaborator (spec 1
    and 2) and is missing from the sources.  The body of a message is a value
    of one of the AMQP types; reading it as a string yields the string or
    throws a conversion error.  [get<std::string>] takes a string only,
    [coerce<std::string>] any string-like value. *)
Inductive value :=
| v_null
| v_bool (b : bool)
| v_long (z : Z)
| v_string (s : string)
| v_symbol (s : string)
| v_binary (s : string).

Record message := mk_message {
  body : value;
  id : option string
}.

(** A C++ call either returns or throws a std::exception. *)
Inductive result (A : Type) :=
| Ok (a : A)
| Raise (what : string).

Arguments Ok {A} a.
Arguments Raise {A} what.

Definition get_string (v : value) : result string :=
  match v with
  | v_string s => Ok s
  | _ => Raise "conversion_error"
  end.

Definition coerce_string (v : value) : result string :=
  match v with
  | v_string s | v_symbol s | v_binary s => Ok s
  | _ => Raise "conversion_error"
  end.

(** Modelled from the spec: the sender link of the library, which is missing
    from the sources (spec 3, Link: "a credit counter"; glossary, Credit: "a
    flow-control allowance granted by a receiver to a sender, denominated in
    permitted message transfers").  A flow performative grants credit, a send
    made with credit is one transfer and takes one unit. *)
Record sender := mk_sender {
  credit : Z;
  transfers : list message
}.

Definition attach : sender := mk_sender 0 [].

Definition flow (grant : N) (s : sender) : sender :=
  mk_sender (credit s + Z.of_N grant) (transfers s).

(** Modelled from the spec: a send emits its transfer only with credit (spec
    4.3: the link holds the send "until credit > 0 [...] then emits a
    transfer frame"; spec 3: "credit counter never negative").  Without
    credit nothing is transferred and the counter stays as it is. *)
Definition send (msg : message) (s : sender) : sender :=
  if (0 <? credit s)%Z
  then mk_sender (credit s - 1) (transfers s ++ [msg])
  else s.

(** The outcomes a receiver can give a delivery. *)
Inductive disposition :=
| accept
| reject
| release
| modify.

(** What the container feeds a sending handler. *)
Inductive sender_event :=
| Flow (grant : N)
| Sendable
| TrackerAccept (tracker : nat).

Definition grant_of (e : sender_event) : Z :=
  match e with
  | Flow g => Z.of_N g
  | _ => 0%Z
  end.

Definition grants (evs : list sender_event) : Z :=
  fold_right Z.add 0%Z (map grant_of evs).

End Proton.

(** ** send_lots.cpp, send_lots_tls.cpp, send_lots_leaky.cpp : LoggingHandler *)

Module LoggingHandler.
Import Proton.

Record handler := mk_handler {
  sent : Z;
  number_to_send : Z;
  closed : bool
}.

(** The constructor: [sent = 0], [closed = false]. *)
Definition make (number_to_send : Z) : handler :=
  mk_handler 0 number_to_send false.

(** The handler, its link, how often [connection().close()] was called, and the
    trackers whose acceptance has arrived, latest last. *)
Record world := mk_world {
  h : handler;
  link : sender;
  close_calls : nat;
  accepted : list nat
}.

Definition start (number_to_send : Z) : world :=
  mk_world (make number_to_send) attach 0 [].

(** on_tracker_accept, the same text in the three programs:
    [if (sent == number_to_send && !closed) { t.connection().close(); closed = true; }] *)
Definition on_tracker_accept (w : world) : world :=
  if (sent (h w) =? number_to_send (h w))%Z && negb (closed (h w))
  then mk_world (mk_handler (sent (h w)) (number_to_send (h w)) true)
                (link w) (S (close_calls w)) (accepted w)
  else w.

Section on_sendable.

(** The credit test of the loop: [s.credit() > 0] in send_lots.cpp,
    [s.credit()] taken as a truth value in the other two. *)
Variable has_credit : Z -> bool.
Variable msg : message.

(** The loop [while (has_credit && (sent < number_to_send)) { s.send (msg); sent++; }].
    [sent] stays below [number_to_send] inside the loop, so the int never
    overflows. *)
Fixpoint sending (fuel : nat) (w : world) : world :=
  match fuel with
  | O => w
  | S k =>
      if has_credit (credit (link w)) && (sent (h w) <? number_to_send (h w))%Z
      then sending k
             (mk_world (mk_handler (sent (h w) + 1) (number_to_send (h w))
                          (closed (h w)))
                (send msg (link w)) (close_calls w) (accepted w))
      else w
  end.

(** Each round raises [sent] by one towards [number_to_send], which bounds the
    number of rounds. *)
Definition on_sendable (w : world) : world :=
  sending (Z.to_nat (number_to_send (h w) - sent (h w))) w.

Definition handle (e : sender_event) (w : world) : world :=
  match e with
  | Flow g => mk_world (h w) (flow g (link w)) (close_calls w) (accepted w)
  | Sendable => on_sendable w
  | TrackerAccept i =>
      let w' := on_tracker_accept w in
      mk_world (h w') (link w') (close_calls w') (accepted w ++ [i])
  end.

Definition run (evs : list sender_event) (w : world) : world :=
  fold_left (fun w e => handle e w) evs w.

End on_sendable.

Definition sent_count (w : world) : Z :=
  Z.of_nat (length (transfers (link w))).

(** The books of a link after the grants [g]: the credit is what was granted
    less what was sent, it is not negative, and [sent], which counts the
    handler's calls of [s.send], is the number of transfers (every call was
    made with credit and emitted its transfer) and has not passed
    [number_to_send]. *)
Definition accounted (g : Z) (w : world) : Prop :=
  credit (link w) = (g - sent_count w)%Z /\
  (0 <= credit (link w))%Z /\
  sent (h w) = sent_count w /\
  (sent (h w) <= Z.max 0 (number_to_send (h w)))%Z.


(** What on_tracker_accept and the other callbacks [handle e] do about
    closing, seen from a world [w]. *)
Definition close_discipline (handle : sender_event -> world -> world)
    (w : world) (e : sender_event) : Prop :=
  close_calls w <= 1 /\
  (closed (h w) = true <-> close_calls w = 1) /\
  (closed (h w) = true ->
   on_tracker_accept w = w /\
   closed (h (handle e w)) = true /\
   close_calls (handle e w) = close_calls w) /\
  (close_calls (on_tracker_accept w) = S (close_calls w) ->
   closed (h w) = false /\ closed (h (on_tracker_accept w)) = true).

(** [closed] tells whether close() has been called, which happens at most
    once, after every planned message was sent and an acceptance came in. *)
Definition closed_once (w : world) : Prop :=
  close_calls w = (if closed (h w) then 1 else 0) /\
  (closed (h w) = true ->
   sent (h w) = number_to_send (h w) /\ accepted w <> []).

End LoggingHandler.

Module SendLots.
Import Proton.

Definition has_credit (c : Z) : bool := (0 <? c)%Z.
Definition msg : message := mk_message (v_string "Hello, world") (Some "foo").
Definition on_sendable := LoggingHandler.on_sendable has_credit msg.
Definition handle := LoggingHandler.handle has_credit msg.
Definition run := LoggingHandler.run has_credit msg.

(** [int count = 10] in main. *)
Definition count : Z := 10.

End SendLots.

Module SendLotsTls.
Import Proton.

Definition has_credit (c : Z) : bool := negb (c =? 0)%Z.
Definition msg : message := mk_message (v_string "Hello, world") None.
Definition on_sendable := LoggingHandler.on_sendable has_credit msg.
Definition handle := LoggingHandler.handle has_credit msg.
Definition run := LoggingHandler.run has_credit msg.
Definition count : Z := 10.

End SendLotsTls.

Module SendLotsLeaky.
Import Proton.

Definition has_credit (c : Z) : bool := negb (c =? 0)%Z.
Definition msg : message := mk_message (v_string "Hello, world") None.
Definition on_sendable := LoggingHandler.on_sendable has_credit msg.
Definition handle := LoggingHandler.handle has_credit msg.
Definition run := LoggingHandler.run has_credit msg.
Definition count : Z := 10.

End SendLotsLeaky.

(** ** send_receive_failover.cpp : MyHandler *)

Module Failover.
Import Proton.

Record handler := mk_handler {
  address : string;
  user : string;
  password : string;
  backup : string;
  sent : Z;
  received : Z
}.

Definition make (address backup user password : string) : handler :=
  mk_handler address user password backup 0 0.

(** The settings of main. *)
Definition main_handler : handler :=
  make "127.0.0.1:5672/foo" "127.0.0.1:5673" "admin" "admin".

Record connection_options := mk_options {
  opt_user : string;
  opt_password : string;
  sasl_allowed_mechs : string;
  sasl_allow_insecure_mechs : bool;
  failover_urls : list string;
  reconnect : bool
}.

(** What on_container_start asks the container for. *)
Inductive request :=
| open_receiver (url : string) (credit_window : Z) (o : connection_options)
| open_sender (url : string) (o : connection_options).

(** on_container_start, lines 100-116. *)
Definition on_container_start (h : handler) : list request :=
  let failovers := [backup h] in
  let conn_options :=
    mk_options (user h) (password h) "PLAIN" true failovers true in
  [open_receiver (address h) 1000 conn_options;
   open_sender (address h) conn_options].

(** The connection handed to on_connection_open, as far as the example and
    the failover are concerned: the endpoint that accepted it, and what
    [c.virtual_host()] yields (the virtual host is part of the connection's
    identity, spec 3).  Lines 71-72 say of the latter: "in Proton 0.37.0,
    virtual_host() seems to be broken, and always shows an empty string". *)
Record connection := mk_connection {
  accepted_by : string;
  virtual_host : string
}.

Definition options_of (r : request) : connection_options :=
  match r with
  | open_receiver _ _ o | open_sender _ o => o
  end.

Definition url_of (r : request) : string :=
  match r with
  | open_receiver url _ _ | open_sender url _ => url
  end.

(** on_connection_open, lines 68-76: the line written to std::cout. *)
Definition on_connection_open (c : connection) : string :=
  let host := virtual_host c in
  String.append "Connected to '" (String.append host "'").

(** on_message, lines 119-126.  [received] and [sent] are ints that only
    feed the log; the model lets them grow without bound. *)
Definition on_message (h : handler) : handler :=
  mk_handler (address h) (user h) (password h) (backup h) (sent h)
             (received h + 1).

(** on_sendable, lines 129-139: one call of [s.send] per call, with no test
    of the credit; [sent] counts the calls of [s.send]. *)
Definition msg : message := mk_message (v_string "Hello, world") None.

Definition on_sendable (s : sender) (h : handler) : sender * handler :=
  (send msg s,
   mk_handler (address h) (user h) (password h) (backup h) (sent h + 1)
              (received h)).

Definition handle (e : sender_event) (w : sender * handler)
  : sender * handler :=
  match e with
  | Flow g => (flow g (fst w), snd w)
  | Sendable => on_sendable (fst w) (snd w)
  | TrackerAccept _ => w
  end.

Definition run (evs : list sender_event) (w : sender * handler)
  : sender * handler :=
  fold_left (fun w e => handle e w) evs w.


End Failover.

(** ** receive_client_ack.cpp : MyHandler *)

Module ReceiveClientAck.
Import Proton.

(** on_message, lines 62-85: the dispositions put on the delivery, and how the
    callback ends.  The catch clause takes every std::exception. *)
Definition on_message (msg : message) : list disposition * result unit :=
  match get_string (body msg) with
  | Ok s => ([accept], Ok tt)
  | Raise e => ([reject], Ok tt)
  end.

End ReceiveClientAck.

(** ** container_per_thread.cpp : MyHandler *)

Module ContainerPerThread.
Import Proton.

Record handler := mk_handler {
  count : Z;
  my_num : Z
}.

Record receiver_options := mk_receiver_options {
  credit_window : Z;
  auto_accept : bool
}.

(** on_container_start, lines 83-85. *)
Definition ro : receiver_options := mk_receiver_options 10 false.

(** handle_message, lines 53-57: [return 1; // 1 == OK]. *)
Definition handle_message (msg : string) : Z := 1.

(** on_message, lines 89-101.  There is no try block: an exception of
    [coerce] leaves the callback before any disposition is given. *)
Definition on_message (msg : message) (h : handler)
  : handler * list disposition * result unit :=
  let h' := mk_handler (count h + 1) (my_num h) in
  match coerce_string (body msg) with
  | Raise e => (h', [], Raise e)
  | Ok m =>
      if (handle_message m =? 0)%Z
      then (h', [reject], Ok tt)
      else (h', [accept], Ok tt)
  end.

End ContainerPerThread.

(** ** server.cpp : ReceiveHandler *)

Module Server.

(** [proton::error_condition (description)]. *)
Record error_condition := mk_error_condition {
  description : string
}.

(** The calls on_receiver_open can make on the receiver [r]; the first two are
    the ones the source has commented out. *)
Inductive call :=
| receiver_close (e : error_condition)
| session_close (e : error_condition)
| connection_close (e : error_condition).

(** on_receiver_open, lines 82-93; [address] is [r.target().address()]. *)
Definition on_receiver_open (address : string) : list call :=
  if bool_decide (address = "foo")
  then []
  else [connection_close (mk_error_condition "Invalid address")].

(** Modelled from the spec: the endpoints the calls act on, which belong to
    the library (spec 3: a Link is "owned by exactly one Session", a Session
    "owned by exactly one Connection"; "all are released when their owning
    Connection transitions to closed"). *)
Record endpoints := mk_endpoints {
  link_open : bool;
  session_open : bool;
  connection_open : bool;
  link_error : option error_condition;
  connection_error : option error_condition
}.

Definition opened : endpoints := mk_endpoints true true true None None.

Definition perform (c : call) (e : endpoints) : endpoints :=
  match c with
  | receiver_close ec =>
      mk_endpoints false (session_open e) (connection_open e) (Some ec)
                   (connection_error e)
  | session_close ec =>
      mk_endpoints false false (connection_open e) (link_error e)
                   (connection_error e)
  | connection_close ec =>
      mk_endpoints false false false (link_error e) (Some ec)
  end.

Definition after (cs : list call) (e : endpoints) : endpoints :=
  fold_left (fun e c => perform c e) cs e.

End Server.

(** ** send_across_threads.cpp : the work queue over a whole run *)

Module SendAcrossThreadsRuns.
Import SendAcrossThreads.

(** The message a closure captured. *)
Definition payload (c : closure) : string :=
  match c with
  | SenderSend msg => msg
  end.

(** The messages of the closures a step put on the work queue. *)
Fixpoint added (evs : list event) : list string :=
  match evs with
  | [] => []
  | Add c :: rest => payload c :: added rest
  | _ :: rest => added rest
  end.

(** [exec], keeping the messages enqueued on the way, oldest first. *)
Fixpoint exec_log (sched : list action) (s : state)
  : option (state * list string) :=
  match sched with
  | [] => Some (s, [])
  | a :: rest =>
      match step a s with
      | Some (s', evs) =>
          match exec_log rest s' with
          | Some (s'', log) => Some (s'', added evs ++ log)
          | None => None
          end
      | None => None
      end
  end.

(** Positions at which no call of [send] is under way. *)
Definition call_over (p : pc) : bool :=
  match p with
  | Returned | Thrown | Crashed => true
  | _ => false
  end.

(** Positions inside or around wait(). *)
Definition at_wait (p : pc) : bool :=
  match p with
  | AtWait _ | Waiting _ | Notified _ => true
  | _ => false
  end.

Definition no_call_under_way (s : state) : Prop :=
  forall t p, callers s !! t = Some p -> call_over p = true.

(** Whoever owns the mutex is a foreground thread inside the locked block. *)
Definition lock_owned (s : state) : Prop :=
  forall th, lock s = Some th ->
    exists t p, th = Foreground t /\ callers s !! t = Some p /\
                in_locked_block p = true.

End SendAcrossThreadsRuns.

(** ** C++ ints *)

Module Cxx.

Definition INT_MAX : Z := 2147483647.

(** [x++] on an int: past INT_MAX the behaviour is undefined, which the
    model shows as [None]. *)
Definition incr (x : Z) : option Z :=
  if (x <? INT_MAX)%Z then Some (x + 1)%Z else None.

End Cxx.

(** ** receive_lots.cpp, receive_selector.cpp,
       receive_lots_multiple_consumers.cpp,
       receive_lots_multiple_connections.cpp : LoggingHandler *)

Module Receiving.
Import Cxx.

(** What on_message asks for when the planned number is reached:
    [d.connection().close()] or [d.container().stop()]. *)
Inductive request :=
| connection_close
| container_stop.

Record handler := mk_handler {
  received : Z;
  number_to_receive : Z;
  closed : bool
}.

(** The constructor: [received = 0], [closed = false]. *)
Definition make (number_to_receive : Z) : handler :=
  mk_handler 0 number_to_receive false.

(** The handler and the requests it has made so far, oldest first. *)
Record world := mk_world {
  h : handler;
  requests : list request
}.

Definition start (number_to_receive : Z) : world :=
  mk_world (make number_to_receive) [].

Section on_message.

Variable at_total : request.

(** on_message, the same text in the four programs but for the request:
    [received++; if (received == number_to_receive) <request>;] *)
Definition on_message (w : world) : option world :=
  match incr (received (h w)) with
  | None => None
  | Some r =>
      Some (mk_world
              (mk_handler r (number_to_receive (h w)) (closed (h w)))
              (if (r =? number_to_receive (h w))%Z
               then requests w ++ [at_total]
               else requests w))
  end.

(** [k] deliveries, one after the other. *)
Fixpoint deliver (k : nat) (w : world) : option world :=
  match k with
  | O => Some w
  | S k' =>
      match on_message w with
      | Some w' => deliver k' w'
      | None => None
      end
  end.

End on_message.

(** The request a run of [k] deliveries has made at its end, for a handler
    that had received [r0] messages before: one, if the planned number lies
    in the range passed through. *)
Definition reached (r0 : Z) (k : nat) (n : Z) : bool :=
  (r0 <? n)%Z && (n <=? r0 + Z.of_nat k)%Z.

End Receiving.

Module ReceiveLots.

Definition on_message := Receiving.on_message Receiving.connection_close.
Definition deliver := Receiving.deliver Receiving.connection_close.

End ReceiveLots.

Module ReceiveSelector.

Definition on_message := Receiving.on_message Receiving.connection_close.
Definition deliver := Receiving.deliver Receiving.connection_close.

End ReceiveSelector.

Module ReceiveLotsMultipleConsumers.

Definition on_message := Receiving.on_message Receiving.container_stop.
Definition deliver := Receiving.deliver Receiving.container_stop.

End ReceiveLotsMultipleConsumers.

Module ReceiveLotsMultipleConnections.
Import Receiving.

Definition on_message := Receiving.on_message container_stop.
Definition deliver := Receiving.deliver container_stop.

(** main makes two handlers, [h1] for "foo" and [h2] for "bar", each on a
    connection of its own in one container; a delivery goes to the handler of
    the connection it arrives on. *)
Inductive connection :=
| to_h1
| to_h2.

Fixpoint deliver_each (ds : list connection) (w : world * world)
  : option (world * world) :=
  match ds with
  | [] => Some w
  | to_h1 :: rest =>
      match on_message (fst w) with
      | Some w1 => deliver_each rest (w1, snd w)
      | None => None
      end
  | to_h2 :: rest =>
      match on_message (snd w) with
      | Some w2 => deliver_each rest (fst w, w2)
      | None => None
      end
  end.

Definition same (c d : connection) : bool :=
  match c, d with
  | to_h1, to_h1 | to_h2, to_h2 => true
  | _, _ => false
  end.

(** How many of the deliveries [ds] arrive on connection [c]. *)
Definition arrivals (c : connection) (ds : list connection) : nat :=
  length (List.filter (same c) ds).

(** How often [container.stop()] has been called. *)
Definition stops (w : world * world) : nat :=
  length (requests (fst w)) + length (requests (snd w)).

End ReceiveLotsMultipleConnections.

(** ** server.cpp : a whole connection *)

Module ServerSession.
Import Server.

(** What a peer can do on its connection to the server: attach a sender (the
    server's on_receiver_open, with the target address), attach a receiver
    (on_sender_open), send a message (on_message). *)
Inductive event :=
| ReceiverOpen (address : string)
| SenderOpen
| Message (body : Proton.value).

(** on_sender_open, lines 68-74, and on_message, lines 110-115: they log, and
    the closing and rejecting calls in them are commented out. *)
Definition on_sender_open : list call := [].
Definition on_message (body : Proton.value) : list call := [].

Definition handle (e : event) : list call :=
  match e with
  | ReceiverOpen address => on_receiver_open address
  | SenderOpen => on_sender_open
  | Message body => on_message body
  end.

Definition run (evs : list event) (e : endpoints) : endpoints :=
  fold_left (fun e ev => after (handle ev) e) evs e.

Definition served (e : event) : bool :=
  match e with
  | ReceiverOpen address => bool_decide (address = "foo")
  | _ => true
  end.

End ServerSession.

(** ** send_lots.cpp and its variants: what one on_sendable call sends *)

Module LoggingHandlerRuns.
Import Proton LoggingHandler.

(** How many messages the loop of on_sendable can send: as many as there is
    credit for and as are left of the plan, none if either is negative. *)
Definition can_send (w : world) : nat :=
  Z.to_nat (Z.min (credit (link w)) (number_to_send (h w) - sent (h w))).

(** The world after [k] sends of [msg]. *)
Definition after_sending (msg : message) (k : nat) (w : world) : world :=
  mk_world
    (mk_handler (sent (h w) + Z.of_nat k) (number_to_send (h w))
       (closed (h w)))
    (mk_sender (credit (link w) - Z.of_nat k)
       (transfers (link w) ++ repeat msg k))
    (close_calls w) (accepted w).

End LoggingHandlerRuns.

(** * Properties *)

(** ** send_across_threads.cpp *)

Section send_across_threads.
Import SendAcrossThreads.

Lemma loop_condition_false (s : state) :
  loop_condition s = false <->
  is_Some (work_queue s) \/ current_sender_credit s <> 0%Z \/
  error_raised s = true.
Proof.
  unfold loop_condition.
  destruct (work_queue s) as [q|].
  - split; [intros _; left; eauto | reflexivity].
  - rewrite andb_false_iff, Z.eqb_neq, negb_false_iff.
    split.
    + intros [H|H]; auto.
    + intros [[q H]|[H|H]]; [discriminate | auto | auto].
Qed.


(** Case analysis on how a step was taken: [H : step a s = Some (s', evs)]
    is split along the action and the tests of the callback, and [s'] and
    [evs] are replaced by what that case yields. *)
Ltac step_inv H :=
  match type of H with
  | step ?a _ = Some _ =>
      destruct a; simpl in H;
      unfold on_sender_open, on_sendable, on_error, run_closure, call_send,
        send, spurious_wake in H;
      repeat match type of H with
             | context [match ?x with _ => _ end] =>
                 destruct x eqn:?; try discriminate H
             end;
      injection H as <- <-
  end.

Ltac pc_simpl :=
  unfold send, call_send, can_call, set_pc, set_callers, set_lock,
    set_work_queue; simpl;
  rewrite ?lookup_insert_eq; simpl.


(** While the queue exists the loop of line 202 is left at once, whatever the
    recorded credit. *)
Lemma wait_skipped_when_queue_exists (s : state) (q : list closure) (t : nat)
    (m : string) :
  work_queue s = Some q -> callers s !! t = Some (AtWhile m) ->
  exists s' evs, step (Resume t) s = Some (s', evs) /\
                 callers s' !! t = Some (AtIf m).
Proof.
  intros Hq Hpc. simpl. unfold send. rewrite Hpc.
  unfold loop_condition. rewrite Hq.
  do 2 eexists. split; [reflexivity|]. pc_simpl. reflexivity.
Qed.


Lemma wake_locked (p : pc) :
  in_locked_block (wake p) = true -> in_locked_block p = true.
Proof. destruct p; simpl; congruence. Qed.

(** Only on_sendable changes the recorded credit. *)
Lemma credit_written_by_on_sendable_only (a : action) (s s' : state)
    (evs : list event) :
  step a s = Some (s', evs) ->
  current_sender_credit s' =
    match a with
    | OnSendable c => c
    | _ => current_sender_credit s
    end.
Proof. intros Hstep. step_inv Hstep; reflexivity. Qed.

(** on_sendable wakes every thread that is blocked in the wait. *)
Lemma on_sendable_wakes_all (c : Z) (s : state) :
  lock s = None ->
  exists s' evs,
    step (OnSendable c) s = Some (s', evs) /\
    current_sender_credit s' = c /\
    forall t m, callers s !! t = Some (Waiting m) ->
                callers s' !! t = Some (Notified m).
Proof.
  intros Hl. simpl. unfold on_sendable. rewrite Hl.
  do 2 eexists. split; [reflexivity|]. split; [reflexivity|].
  intros t m Ht. simpl. rewrite lookup_fmap, Ht. reflexivity.
Qed.

Lemma not_by_neq (t t' : nat) (a : action) :
  not_by t a = true -> actor a = Foreground t' -> t' <> t.
Proof.
  unfold not_by. intros H Ha ->.
  rewrite Ha, bool_decide_eq_true_2 in H by reflexivity. discriminate.
Qed.

(** A thread that has left the locked block stays where it is while others
    move. *)
Lemma step_other_keeps_at_if (t : nat) (m : string) (a : action)
    (s s' : state) (evs : list event) :
  not_by t a = true -> step a s = Some (s', evs) ->
  callers s !! t = Some (AtIf m) -> callers s' !! t = Some (AtIf m).
Proof.
  intros Hnb Hstep Hpc.
  step_inv Hstep; simpl;
    rewrite ?lookup_fmap, ?Hpc; try reflexivity;
    rewrite lookup_insert_ne
      by (eapply not_by_neq; [exact Hnb | reflexivity]);
    exact Hpc.
Qed.

(** Nothing ever clears [error_raised]. *)
Lemma step_keeps_error (a : action) (s s' : state) (evs : list event) :
  step a s = Some (s', evs) -> error_raised s = true -> error_raised s' = true.
Proof. intros Hstep He. step_inv Hstep; simpl; auto; congruence. Qed.

Lemma exec_others (t : nat) (m : string) (others : list action) :
  forall s s1 : state,
    forallb (not_by t) others = true -> exec others s = Some s1 ->
    callers s !! t = Some (AtIf m) ->
    callers s1 !! t = Some (AtIf m) /\
    (error_raised s = true -> error_raised s1 = true).
Proof.
  induction others as [|a others IH]; intros s s1 Hnb Hrun Hpc; simpl in *.
  - injection Hrun as <-. auto.
  - apply andb_prop in Hnb as [Ha Hrest].
    destruct (step a s) as [[s' evs]|] eqn:Hstep; [|discriminate].
    destruct (IH s' s1 Hrest Hrun) as [Hpc1 He1].
    { eapply step_other_keeps_at_if; eauto. }
    split; [exact Hpc1|].
    intros He. apply He1. eapply step_keeps_error; eauto.
Qed.

(** Running the oldest closure is the call [sender.send (msg)] on the
    container thread. *)
Lemma run_closure_sends (s : state) (m : string) (q : list closure) :
  work_queue s = Some (SenderSend m :: q) ->
  exists s', step RunClosure s = Some (s', [Read f_sender]) /\
             work_queue s' = Some q /\ transfers s' = transfers s ++ [m].
Proof.
  intros Hq. simpl. unfold run_closure. rewrite Hq.
  eexists. split; [reflexivity|]. split; reflexivity.
Qed.

Lemma lock_inv_init : lock_inv init.
Proof. intros t p H. simpl in H. rewrite lookup_empty in H. discriminate. Qed.

(** A callback that leaves the mutex as it is and at most wakes waiters. *)
Lemma lock_inv_wake (s s' : state) :
  lock_inv s -> lock s' = lock s ->
  callers s' = callers s \/ callers s' = wake <$> callers s ->
  lock_inv s'.
Proof.
  intros Inv Hl Hc t p Hp Hin. rewrite Hl.
  destruct Hc as [Hc|Hc]; rewrite Hc in Hp.
  - exact (Inv t p Hp Hin).
  - rewrite lookup_fmap in Hp.
    destruct (callers s !! t) as [p0|] eqn:Hp0; [|discriminate].
    injection Hp as <-. apply (Inv t p0 Hp0). apply wake_locked. exact Hin.
Qed.

(** Thread [t] moves to [p]: inside the locked block it owns the mutex
    afterwards; the mutex is otherwise left alone, or was free, or was [t]'s. *)
Lemma lock_inv_move (s s' : state) (t : nat) (p : pc) :
  lock_inv s -> callers s' = <[t := p]> (callers s) ->
  (in_locked_block p = true -> lock s' = Some (Foreground t)) ->
  lock s' = lock s \/ lock s = None \/ lock s = Some (Foreground t) ->
  lock_inv s'.
Proof.
  intros Inv Hc Hin Hl t' p' Hp' Hin'. rewrite Hc in Hp'.
  destruct (decide (t = t')) as [<-|Hne].
  - rewrite lookup_insert_eq in Hp'. injection Hp' as <-. auto.
  - rewrite lookup_insert_ne in Hp' by exact Hne.
    pose proof (Inv t' p' Hp' Hin') as Hown.
    destruct Hl as [Hl|[Hl|Hl]]; congruence.
Qed.

Lemma step_lock_inv (a : action) (s s' : state) (evs : list event) :
  lock_inv s -> step a s = Some (s', evs) -> lock_inv s'.
Proof.
  intros Inv Hstep.
  step_inv Hstep.
  - apply (lock_inv_wake s); simpl; auto.
  - apply (lock_inv_wake s); simpl; auto.
  - apply (lock_inv_wake s); simpl; auto.
  - apply (lock_inv_wake s); simpl; auto.
  - eapply (lock_inv_move s); simpl; eauto; discriminate.
  - eapply (lock_inv_move s); simpl; eauto.
  - eapply (lock_inv_move s); simpl; eauto.
  - eapply (lock_inv_move s); simpl; eauto. discriminate.
  - eapply (lock_inv_move s); simpl; eauto. discriminate.
  - eapply (lock_inv_move s); simpl; eauto.
  - eapply (lock_inv_move s); simpl; eauto; discriminate.
  - eapply (lock_inv_move s); simpl; eauto; discriminate.
  - eapply (lock_inv_move s); simpl; eauto; discriminate.
  - eapply (lock_inv_move s); simpl; eauto; discriminate.
Qed.

Lemma exec_lock_inv (sched : list action) :
  forall s s' : state, lock_inv s -> exec sched s = Some s' -> lock_inv s'.
Proof.
  induction sched as [|a sched IH]; intros s s' Inv Hrun; simpl in Hrun.
  - injection Hrun as <-. exact Inv.
  - destruct (step a s) as [[s1 evs]|] eqn:Hstep; [|discriminate].
    eapply IH; [|exact Hrun]. eapply step_lock_inv; eauto.
Qed.

Lemma under_lock_loop_reads (g : field -> bool) (s : state)
    (rest : list event) :
  under_lock g true (loop_condition_reads s ++ rest) = under_lock g true rest.
Proof.
  unfold loop_condition_reads.
  destruct (work_queue s); [|destruct (current_sender_credit s =? 0)%Z];
    simpl; rewrite ?implb_true_r; reflexivity.
Qed.

Lemma can_call_after_wake (t : nat) (s : state) :
  can_call t s = true -> can_call t (notify_all s) = true.
Proof.
  unfold can_call, notify_all. simpl. rewrite lookup_fmap.
  destruct (callers s !! t) as [[k|k|k|k|k|k| | |]|]; simpl; congruence.
Qed.

(** The queue only grows at its end and shrinks at its head: a closure and the
    payload it captured are never altered once handed over. *)
Lemma step_keeps_closures (a : action) (s s' : state) (evs : list event)
    (q : list closure) :
  step a s = Some (s', evs) -> work_queue s = Some q ->
  exists q', work_queue s' = Some q' /\
             (q' = q \/ (exists m, q' = q ++ [SenderSend m]) \/
              (exists c, q = c :: q')).
Proof.
  intros Hstep Hq.
  step_inv Hstep; simpl;
    try discriminate Hq; try (injection Hq as <-);
    rewrite ?Hq; simpl; eauto 6.
Qed.

(** A foreground thread writes no member of the handler and never uses the
    [sender] member. *)
Lemma foreground_reads_only (t : nat) (s s' : state) (evs : list event) :
  step (Resume t) s = Some (s', evs) ->
  forallb (fun e => negb (writes_member e || touches_sender e)) evs = true.
Proof.
  intros Hstep. simpl in Hstep. unfold send in Hstep.
  repeat match type of Hstep with
         | context [match ?x with _ => _ end] =>
             destruct x eqn:?; try discriminate Hstep
         end;
    injection Hstep as <- <-; try reflexivity;
    unfold loop_condition_reads;
    (destruct (work_queue s); [|destruct (current_sender_credit s =? 0)%Z]);
    reflexivity.
Qed.

Lemma disciplined_locked_block (g : field -> bool) (t : nat) (p : pc)
    (s : state) :
  lock_inv s -> callers s !! t = Some p -> in_locked_block p = true ->
  disciplined g (Resume t) s = true.
Proof.
  intros Inv Hpc Hin. unfold disciplined. simpl. unfold send. rewrite Hpc.
  unfold holds. rewrite (Inv t p Hpc Hin), bool_decide_eq_true_2 by reflexivity.
  destruct p; try discriminate Hin.
  - destruct (loop_condition s).
    + rewrite <- (app_nil_r (loop_condition_reads s)).
      apply under_lock_loop_reads.
    + apply under_lock_loop_reads.
  - reflexivity.
Qed.

Lemma disciplined_credit (a : action) (s : state) :
  lock_inv s -> disciplined credit_only a s = true.
Proof.
  intros Inv.
  destruct a as [| c | | | t m | t | t].
  - unfold disciplined. simpl. unfold on_sender_open.
    destruct (lock s); reflexivity.
  - unfold disciplined. simpl. unfold on_sendable.
    destruct (lock s); reflexivity.
  - reflexivity.
  - unfold disciplined. simpl. unfold run_closure.
    destruct (work_queue s) as [[|[msg] q]|]; reflexivity.
  - unfold disciplined. simpl. unfold call_send.
    destruct (can_call t s); reflexivity.
  - destruct (callers s !! t) as [p|] eqn:Hpc.
    + destruct (in_locked_block p) eqn:Hin.
      * eapply disciplined_locked_block; eauto.
      * unfold disciplined. simpl. unfold send. rewrite Hpc.
        destruct p; try discriminate Hin; try reflexivity.
        -- destruct (lock s); reflexivity.
        -- destruct (lock s); reflexivity.
        -- destruct (error_raised s); [reflexivity|].
           destruct (work_queue s); reflexivity.
    + unfold disciplined. simpl. unfold send. rewrite Hpc. reflexivity.
  - unfold disciplined. simpl. unfold spurious_wake.
    destruct (callers s !! t) as [[k|k|k|k|k|k| | |]|]; reflexivity.
Qed.

(** C1 (defect in the code).  Once on_sender_open has stored the work queue,
    the loop of line 202 lets a caller through although no credit has been
    recorded and no error raised: the documented condition [may_proceed] is
    false all along, yet the call never waits and puts its closure on the
    queue. *)
Theorem send_does_not_wait_for_credit :
  exists s0 s1 s2,
    exec [OnSenderOpen] init = Some s0 /\
    may_proceed s0 = false /\
    exec [CallSend 0 "Hello, World"; Resume 0; Resume 0] s0 = Some s1 /\
    callers s1 !! 0 = Some (AtIf "Hello, World") /\
    may_proceed s1 = false /\
    exec [Resume 0] s1 = Some s2 /\
    callers s2 !! 0 = Some Returned /\
    work_queue s2 = Some [SenderSend "Hello, World"] /\
    current_sender_credit s2 = 0%Z.
Proof.
  do 3 eexists.
  repeat (split; [vm_compute; reflexivity|]).
  vm_compute; reflexivity.
Qed.


(** C3, counterexample.  The caller leaves the wait with [error_raised] still
    false; on_error runs before the caller reaches line 214; the call then
    throws and puts nothing on the work queue. *)
Lemma error_after_wait_makes_send_throw :
  exists s_wait s_end,
    exec [OnSenderOpen; OnSendable 1; CallSend 0 "m"; Resume 0; Resume 0] init
      = Some s_wait /\
    callers s_wait !! 0 = Some (AtIf "m") /\
    error_raised s_wait = false /\
    exec [OnError; Resume 0] s_wait = Some s_end /\
    callers s_end !! 0 = Some Thrown /\
    work_queue s_end = Some [] /\
    transfers s_end = [].
Proof.
  do 2 eexists.
  repeat (split; [vm_compute; reflexivity|]).
  vm_compute; reflexivity.
Qed.

(** C3, as amended.  Let [s] be the state in which the caller [t] has left
    the wait, and [s1] the state in which it reaches the test of line 214
    after other threads have moved.  The call is decided by [error_raised] as
    read there: if it is true (as it is whenever it was true in [s]) the call
    throws and the queue is left as it was; if it is false and the work queue
    exists, exactly one closure, carrying the caller's message, is added at
    the end of the queue and the call returns.  In both cases the call itself
    hands nothing to [sender.send]. *)
Theorem send_outcome_follows_flag_at_test :
  forall (s : state) (t : nat) (m : string) (others : list action) (s1 : state),
    callers s !! t = Some (AtIf m) ->
    forallb (not_by t) others = true ->
    exec others s = Some s1 ->
    exists s2 evs,
      step (Resume t) s1 = Some (s2, evs) /\
      transfers s2 = transfers s1 /\
      (error_raised s = true -> error_raised s1 = true) /\
      (error_raised s1 = true ->
         callers s2 !! t = Some Thrown /\ work_queue s2 = work_queue s1) /\
      (error_raised s1 = false ->
         forall q, work_queue s1 = Some q ->
           callers s2 !! t = Some Returned /\
           work_queue s2 = Some (q ++ [SenderSend m])).
Proof.
  intros s t m others s1 Hpc Hnb Hrun.
  destruct (exec_others t m others s s1 Hnb Hrun Hpc) as [Hpc1 Hsticky].
  simpl. unfold send. rewrite Hpc1.
  destruct (error_raised s1) eqn:He.
  - do 2 eexists. split; [reflexivity|]. split; [reflexivity|].
    split; [exact Hsticky|]. split.
    + intros _. pc_simpl. split; reflexivity.
    + discriminate.
  - destruct (work_queue s1) as [q|] eqn:Hq.
    + do 2 eexists. split; [reflexivity|]. split; [reflexivity|].
      split; [exact Hsticky|]. split; [discriminate|].
      intros _ q' [= <-]. pc_simpl. split; reflexivity.
    + do 2 eexists. split; [reflexivity|]. split; [reflexivity|].
      split; [exact Hsticky|]. split; [discriminate|].
      intros _ q' Hq'. discriminate.
Qed.

(** C3, witness: the caller has left the wait without an error, on_error
    runs, and the caller reaches the test. *)
Lemma send_outcome_follows_flag_at_test_witness :
  exists s2 evs,
    step (Resume 0)
      (mk_state true (Some []) 1 true None {[ 0 := AtIf "m" ]} []) =
      Some (s2, evs) /\
    transfers s2 = [] /\
    (false = true -> true = true) /\
    (true = true ->
       callers s2 !! 0 = Some Thrown /\ work_queue s2 = Some []) /\
    (true = false ->
       forall q, Some [] = Some q ->
         callers s2 !! 0 = Some Returned /\
         work_queue s2 = Some (q ++ [SenderSend "m"])).
Proof.
  apply (send_outcome_follows_flag_at_test
           (mk_state true (Some []) 1 false None {[ 0 := AtIf "m" ]} [])
           0 "m" [OnError]
           (mk_state true (Some []) 1 true None {[ 0 := AtIf "m" ]} []));
    vm_compute; reflexivity.
Defined.

(** C4, counterexample.  The caller has passed the wait and released the
    mutex; its next step reads [error_raised] at line 214 with the mutex
    free.  In the same state on_error writes the flag with no lock at all. *)
Lemma error_flag_accessed_without_lock :
  exists s,
    exec [OnSenderOpen; OnSendable 1; CallSend 0 "m"; Resume 0; Resume 0] init
      = Some s /\
    lock s = None /\
    snd <$> step (Resume 0) s =
      Some [Read f_error_raised; Read f_work_queue; Add (SenderSend "m")] /\
    disciplined credit_and_flag (Resume 0) s = false /\
    snd <$> step OnError s = Some [Write f_error_raised; NotifyAll] /\
    disciplined credit_and_flag OnError s = false.
Proof.
  eexists.
  repeat (split; [vm_compute; reflexivity|]).
  vm_compute; reflexivity.
Qed.

(** C4, as amended.  In every state the handler can reach: each read and
    write of [current_sender_credit] happens with the mutex held; inside the
    wait loop of [send] every member, [error_raised] and [work_queue]
    included, is read with the mutex held; a foreground thread writes no
    member and never uses [sender]; and a step leaves the closures already on
    the work queue, with the payloads they captured, as they are (it adds one
    at the end or takes the oldest off).  [send]'s test of [error_raised] at
    line 214 and its use of [work_queue] at line 222 come after the lock has
    been released. *)
Theorem credit_is_accessed_under_the_lock :
  forall (sched : list action) (s : state) (a : action),
    exec sched init = Some s ->
    disciplined credit_only a s = true /\
    (forall t p, callers s !! t = Some p -> in_locked_block p = true ->
                 disciplined every_field (Resume t) s = true) /\
    (forall t s' evs,
        step (Resume t) s = Some (s', evs) ->
        forallb (fun e => negb (writes_member e || touches_sender e)) evs
          = true) /\
    (forall s' evs q,
        step a s = Some (s', evs) -> work_queue s = Some q ->
        exists q', work_queue s' = Some q' /\
                   (q' = q \/ (exists m, q' = q ++ [SenderSend m]) \/
                    (exists c, q = c :: q'))).
Proof.
  intros sched s a Hrun.
  pose proof (exec_lock_inv sched init s lock_inv_init Hrun) as Inv.
  split; [apply disciplined_credit; exact Inv|].
  split; [intros t p; apply disciplined_locked_block; exact Inv|].
  split; [intros t s' evs; apply foreground_reads_only|].
  intros s' evs q. apply step_keeps_closures.
Qed.

(** C4, witness: a caller that has taken the mutex and is about to test the
    loop condition. *)
Lemma credit_is_accessed_under_the_lock_witness :
  disciplined credit_only (Resume 0)
    (mk_state false None 0 false (Some (Foreground 0))
       {[ 0 := AtWhile "m" ]} []) = true.
Proof.
  apply (credit_is_accessed_under_the_lock [CallSend 0 "m"; Resume 0]
           (mk_state false None 0 false (Some (Foreground 0))
              {[ 0 := AtWhile "m" ]} [])
           (Resume 0)).
  vm_compute; reflexivity.
Defined.

End send_across_threads.

(** ** send_lots.cpp, send_lots_tls.cpp, send_lots_leaky.cpp *)

Section logging_handler.
Import Proton LoggingHandler.

Variable has_credit : Z -> bool.
Variable msg : message.

(** On a credit that is not negative the three credit tests agree. *)
Hypothesis has_credit_spec :
  forall c : Z, (0 <= c)%Z -> has_credit c = (0 <? c)%Z.

(** With credit a send is one transfer and takes one unit. *)
Lemma send_with_credit (m : message) (s : sender) :
  (0 < credit s)%Z ->
  send m s = mk_sender (credit s - 1) (transfers s ++ [m]).
Proof. intros H. unfold send. apply Z.ltb_lt in H. rewrite H. reflexivity. Qed.

Lemma sending_frame (fuel : nat) :
  forall w : world,
    number_to_send (h (sending has_credit msg fuel w)) = number_to_send (h w) /\
    closed (h (sending has_credit msg fuel w)) = closed (h w) /\
    close_calls (sending has_credit msg fuel w) = close_calls w /\
    accepted (sending has_credit msg fuel w) = accepted w.
Proof.
  induction fuel as [|k IH]; intros w; simpl.
  - auto.
  - destruct (has_credit (credit (link w)) &&
              (sent (h w) <? number_to_send (h w))%Z).
    + destruct (IH (mk_world
                      (mk_handler (sent (h w) + 1) (number_to_send (h w))
                         (closed (h w)))
                      (send msg (link w)) (close_calls w) (accepted w)))
        as (H1 & H2 & H3 & H4).
      simpl in *. auto.
    + auto.
Qed.

Lemma sending_accounted (fuel : nat) :
  forall (w : world) (g : Z),
    accounted g w -> accounted g (sending has_credit msg fuel w).
Proof.
  induction fuel as [|k IH]; intros w g Hw; simpl.
  - exact Hw.
  - destruct (has_credit (credit (link w)) &&
              (sent (h w) <? number_to_send (h w))%Z) eqn:Hguard;
      [|exact Hw].
    apply IH.
    destruct Hw as (Hc & Hpos & Hs & Hle).
    apply andb_prop in Hguard as [Hcr Hlt].
    rewrite (has_credit_spec _ Hpos) in Hcr.
    apply Z.ltb_lt in Hcr. apply Z.ltb_lt in Hlt.
    unfold accounted, sent_count in *. simpl.
    rewrite (send_with_credit msg (link w) Hcr). simpl.
    rewrite length_app. simpl. repeat split; lia.
Qed.

Lemma sending_stops (w : world) (fuel : nat) :
  has_credit (credit (link w)) && (sent (h w) <? number_to_send (h w))%Z
    = false ->
  sending has_credit msg fuel w = w.
Proof. intros H. destruct fuel; simpl; [|rewrite H]; reflexivity. Qed.

(** With the fuel [on_sendable] gives it the loop runs until its condition
    fails: the model leaves the loop where the program does. *)
Lemma sending_exit (fuel : nat) :
  forall w : world,
    (number_to_send (h w) - sent (h w) <= Z.of_nat fuel)%Z ->
    let w' := sending has_credit msg fuel w in
    has_credit (credit (link w')) && (sent (h w') <? number_to_send (h w'))%Z
      = false.
Proof.
  induction fuel as [|k IH]; intros w Hfuel; simpl.
  - apply andb_false_iff. right. apply Z.ltb_ge. lia.
  - destruct (has_credit (credit (link w)) &&
              (sent (h w) <? number_to_send (h w))%Z) eqn:Hguard;
      [|exact Hguard].
    apply IH. simpl. lia.
Qed.

Lemma on_sendable_exit (w : world) :
  let w' := on_sendable has_credit msg w in
  has_credit (credit (link w')) && (sent (h w') <? number_to_send (h w'))%Z
    = false.
Proof. unfold on_sendable. apply sending_exit. lia. Qed.

(** Enough credit for what is left to send: the loop sends all of it. *)
Lemma sending_all (fuel : nat) :
  forall w : world,
    Z.of_nat fuel = (number_to_send (h w) - sent (h w))%Z ->
    (Z.of_nat fuel <= credit (link w))%Z ->
    sent (h (sending has_credit msg fuel w)) = number_to_send (h w).
Proof.
  induction fuel as [|k IH]; intros w Hfuel Hcredit; simpl.
  - lia.
  - rewrite has_credit_spec by lia.
    replace (0 <? credit (link w))%Z with true
      by (symmetry; apply Z.ltb_lt; lia).
    replace (sent (h w) <? number_to_send (h w))%Z with true
      by (symmetry; apply Z.ltb_lt; lia).
    simpl. rewrite IH; simpl; [reflexivity | lia |].
    rewrite send_with_credit by lia. simpl. lia.
Qed.

Lemma handle_accounted (e : sender_event) (w : world) (g : Z) :
  accounted g w -> accounted (g + grant_of e) (handle has_credit msg e w).
Proof.
  intros Hw. destruct e as [gr| |i]; simpl.
  - destruct Hw as (Hc & Hpos & Hs & Hle).
    unfold accounted, sent_count in *. simpl. repeat split; lia.
  - rewrite Z.add_0_r. apply sending_accounted. exact Hw.
  - rewrite Z.add_0_r. unfold on_tracker_accept.
    destruct ((sent (h w) =? number_to_send (h w))%Z && negb (closed (h w)));
      exact Hw.
Qed.

Lemma handle_closed_once (e : sender_event) (w : world) :
  closed_once w -> closed_once (handle has_credit msg e w).
Proof.
  intros [Hn Hc]. destruct e as [gr| |i]; simpl.
  - split; simpl; assumption.
  - unfold on_sendable.
    destruct (sending_frame
                (Z.to_nat (number_to_send (h w) - sent (h w))) w)
      as (H1 & H2 & H3 & H4).
    unfold closed_once. rewrite H2, H3, H4, H1. split; [exact Hn|].
    intros Hcl. destruct (Hc Hcl) as [Hs Ha]. split; [|exact Ha].
    rewrite sending_stops; [exact Hs|].
    apply andb_false_iff. right. apply Z.ltb_ge. lia.
  - unfold on_tracker_accept.
    destruct ((sent (h w) =? number_to_send (h w))%Z && negb (closed (h w)))
      eqn:Htest; simpl.
    + apply andb_prop in Htest as [Heq Hncl].
      apply Z.eqb_eq in Heq. apply negb_true_iff in Hncl.
      rewrite Hncl in Hn. split; simpl.
      * rewrite Hn. reflexivity.
      * intros _. split; [exact Heq|]. destruct (accepted w); discriminate.
    + split; simpl; [exact Hn|].
      intros Hcl. destruct (Hc Hcl) as [Hs Ha]. split; [exact Hs|].
      destruct (accepted w); discriminate.
Qed.

Lemma run_accounted (evs : list sender_event) :
  forall (w : world) (g : Z),
    accounted g w -> accounted (g + grants evs) (run has_credit msg evs w).
Proof.
  induction evs as [|e evs IH]; intros w g Hw; simpl.
  - unfold grants. simpl. rewrite Z.add_0_r. exact Hw.
  - replace (g + grants (e :: evs))%Z with (g + grant_of e + grants evs)%Z
      by (unfold grants; simpl; lia).
    apply IH. apply handle_accounted. exact Hw.
Qed.

Lemma run_closed_once (evs : list sender_event) :
  forall w : world, closed_once w -> closed_once (run has_credit msg evs w).
Proof.
  induction evs as [|e evs IH]; intros w Hw; simpl.
  - exact Hw.
  - apply IH. apply handle_closed_once. exact Hw.
Qed.

Lemma start_accounted (n : Z) : accounted 0 (start n).
Proof. unfold accounted, sent_count, start. simpl. repeat split; lia. Qed.

Lemma start_closed_once (n : Z) : closed_once (start n).
Proof. split; simpl; [reflexivity | discriminate]. Qed.

Lemma run_from_start (n : Z) (evs : list sender_event) :
  accounted (grants evs) (run has_credit msg evs (start n)) /\
  closed_once (run has_credit msg evs (start n)).
Proof.
  split.
  - apply (run_accounted evs (start n) 0). apply start_accounted.
  - apply run_closed_once. apply start_closed_once.
Qed.

Lemma run_number_to_send (evs : list sender_event) :
  forall w : world,
    number_to_send (h (run has_credit msg evs w)) = number_to_send (h w).
Proof.
  induction evs as [|e evs IH]; intros w; simpl; [reflexivity|].
  rewrite IH. destruct e as [gr| |i]; simpl.
  - reflexivity.
  - apply sending_frame.
  - unfold on_tracker_accept.
    destruct ((sent (h w) =? number_to_send (h w))%Z && negb (closed (h w)));
      reflexivity.
Qed.


End logging_handler.

Section send_lots.
Import Proton LoggingHandler.

Lemma send_lots_has_credit (c : Z) :
  (0 <= c)%Z -> SendLots.has_credit c = (0 <? c)%Z.
Proof. reflexivity. Qed.

Lemma send_lots_tls_has_credit (c : Z) :
  (0 <= c)%Z -> SendLotsTls.has_credit c = (0 <? c)%Z.
Proof.
  intros Hc. unfold SendLotsTls.has_credit.
  destruct (Z.eqb_spec c 0) as [->|Hne]; simpl; [reflexivity|].
  symmetry. apply Z.ltb_lt. lia.
Qed.

Lemma send_lots_leaky_has_credit (c : Z) :
  (0 <= c)%Z -> SendLotsLeaky.has_credit c = (0 <? c)%Z.
Proof. exact (send_lots_tls_has_credit c). Qed.

(** Once every planned message is sent, [sent] stays. *)
Lemma run_sent_done (has_credit : Z -> bool) (msg : message)
    (evs : list sender_event) :
  forall w : world,
    sent (h w) = number_to_send (h w) ->
    sent (h (run has_credit msg evs w)) = number_to_send (h w).
Proof.
  induction evs as [|e evs IH]; intros w Hdone; simpl; [exact Hdone|].
  assert (sent (h (handle has_credit msg e w)) = sent (h w) /\
          number_to_send (h (handle has_credit msg e w))
            = number_to_send (h w)) as [Hs Hn].
  { destruct e as [gr| |i]; simpl.
    - auto.
    - unfold on_sendable. rewrite sending_stops; [auto|].
      apply andb_false_iff. right. apply Z.ltb_ge. lia.
    - unfold on_tracker_accept.
      destruct ((sent (h w) =? number_to_send (h w))%Z && negb (closed (h w)));
        auto. }
  rewrite IH; congruence.
Qed.

Lemma close_discipline_of_closed_once (has_credit : Z -> bool) (msg : message)
    (w : world) (e : sender_event) :
  closed_once w -> close_discipline (handle has_credit msg) w e.
Proof.
  intros Hw.
  pose proof (handle_closed_once has_credit msg e w Hw) as [Hn' Hc'].
  destruct Hw as [Hn Hc].
  unfold close_discipline.
  assert (closed (h w) = true ->
          closed (h (handle has_credit msg e w)) = true) as Hmono.
  { intros Hcl. destruct e as [gr| |i]; simpl.
    - exact Hcl.
    - unfold on_sendable.
      destruct (sending_frame has_credit msg
                  (Z.to_nat (number_to_send (h w) - sent (h w))) w)
        as (_ & H2 & _). congruence.
    - unfold on_tracker_accept. rewrite Hcl, andb_false_r. exact Hcl. }
  split; [|split; [|split]].
  - rewrite Hn. destruct (closed (h w)); lia.
  - rewrite Hn. destruct (closed (h w)); split; congruence.
  - intros Hcl. split; [|split].
    + unfold on_tracker_accept. rewrite Hcl, andb_false_r. reflexivity.
    + apply Hmono. exact Hcl.
    + rewrite Hn', Hn, Hcl, (Hmono Hcl). reflexivity.
  - unfold on_tracker_accept.
    destruct ((sent (h w) =? number_to_send (h w))%Z && negb (closed (h w)))
      eqn:Htest; simpl.
    + intros _. apply andb_prop in Htest as [_ Hncl].
      apply negb_true_iff in Hncl. auto.
    + intros H. lia.
Qed.

(** C5, counterexample.  Credit for ten arrives, on_sendable sends the ten
    messages, and the acceptance of the first one alone makes
    on_tracker_accept close the connection: the tenth has not been accepted. *)
Lemma closed_on_first_acceptance :
  let w := SendLots.run [Flow 10; Sendable; TrackerAccept 1]
             (start SendLots.count) in
  length (transfers (link w)) = 10 /\
  accepted w = [1] /\
  close_calls w = 1 /\
  closed (h w) = true.
Proof. vm_compute. repeat split. Qed.

(** C5, as amended.  The sender of send_lots.cpp, planned for ten messages,
    never sends more than ten, and sends exactly ten once credit for ten has
    come in.  on_sendable never closes the connection.  close() is called in
    on_tracker_accept, at the first acceptance that arrives when all ten have
    been sent, whichever transfer it is for: so never before all ten are sent
    and one acceptance has come in. *)
Theorem ten_sent_then_closed_on_an_acceptance :
  forall evs : list sender_event,
    let w := SendLots.run evs (start SendLots.count) in
    (sent (h w) <= 10)%Z /\
    length (transfers (link w)) = Z.to_nat (sent (h w)) /\
    close_calls (SendLots.on_sendable w) = close_calls w /\
    (close_calls w <> 0 -> sent (h w) = 10%Z /\ accepted w <> []) /\
    (sent (h w) = 10%Z ->
     forall i, close_calls (SendLots.handle (TrackerAccept i) w) = 1) /\
    (forall g rest,
        evs = Flow g :: Sendable :: rest -> (10 <= g)%N ->
        length (transfers (link w)) = 10).
Proof.
  intros evs w.
  destruct (run_from_start SendLots.has_credit SendLots.msg
              send_lots_has_credit SendLots.count evs)
    as [(Hc & Hpos & Hs & Hle) [Hn Hcl]].
  fold SendLots.run in Hc, Hpos, Hs, Hle, Hn, Hcl. fold w in Hc, Hpos, Hs, Hle, Hn, Hcl.
  assert (number_to_send (h w) = 10%Z) as HN.
  { unfold w, SendLots.run. rewrite run_number_to_send. reflexivity. }
  rewrite HN in *. unfold sent_count in *.
  split; [lia|]. split; [lia|]. split; [|split; [|split]].
  - unfold SendLots.on_sendable, on_sendable. apply sending_frame.
  - intros Hne. apply Hcl. destruct (closed (h w)); [reflexivity|congruence].
  - intros Hten i. unfold SendLots.handle. simpl. unfold on_tracker_accept.
    rewrite Hten, HN. simpl.
    destruct (closed (h w)); simpl; rewrite Hn; reflexivity.
  - intros g rest -> Hg.
    assert (sent (h w) = 10%Z) as Hten; [|lia].
    unfold w, SendLots.run. simpl.
    rewrite run_sent_done; simpl.
    + apply sending_frame.
    + unfold on_sendable.
      rewrite (proj1 (sending_frame SendLots.has_credit SendLots.msg _ _)).
      apply (sending_all SendLots.has_credit SendLots.msg send_lots_has_credit);
        simpl; unfold SendLots.count; lia.
Qed.

(** C10.  In send_lots.cpp, send_lots_tls.cpp and send_lots_leaky.cpp alike,
    whatever the container has fed the handler: close() has been called at
    most once; it has been called exactly when [closed] is true; once [closed]
    is true on_tracker_accept does nothing and no callback resets the flag or
    closes again; and a call of on_tracker_accept that closes finds [closed]
    false and leaves it true. *)
Theorem close_is_called_at_most_once :
  forall (n : Z) (evs : list sender_event) (e : sender_event),
    close_discipline SendLots.handle (SendLots.run evs (start n)) e /\
    close_discipline SendLotsTls.handle (SendLotsTls.run evs (start n)) e /\
    close_discipline SendLotsLeaky.handle (SendLotsLeaky.run evs (start n)) e.
Proof.
  intros n evs e.
  split; [|split]; apply close_discipline_of_closed_once;
    apply run_closed_once, start_closed_once.
Qed.

End send_lots.

(** ** send_receive_failover.cpp *)

Section failover.
Import Proton Failover.





(** C8.  What the example does about failing over is to ask for it: both
    connections are opened on the primary address with the backup as the only
    failover URL and with reconnecting switched on, and the endpoints are
    tried by the library.  on_connection_open then writes [c.virtual_host()]
    and nothing else of the connection: for the connection the backup
    accepted, whose virtual host is the empty string lines 71-72 tell of, the
    line is [Connected to ''], the same line as for a connection the primary
    accepted.  The host that accepted is not reported. *)
Theorem on_connection_open_reports_the_virtual_host :
  (forall r : request,
      In r (on_container_start main_handler) ->
      url_of r = "127.0.0.1:5672/foo" /\
      failover_urls (options_of r) = ["127.0.0.1:5673"] /\
      reconnect (options_of r) = true) /\
  (forall c : connection,
      on_connection_open c =
        String.append "Connected to '" (String.append (virtual_host c) "'")) /\
  on_connection_open (mk_connection "127.0.0.1:5673" "") = "Connected to ''" /\
  on_connection_open (mk_connection "127.0.0.1:5673" "") =
    on_connection_open (mk_connection "127.0.0.1:5672" "").
Proof.
  split.
  - intros r [<- | [<- | []]]; simpl; auto.
  - repeat split.
Qed.

End failover.

(** ** receive_client_ack.cpp and container_per_thread.cpp *)

Section receivers.
Import Proton.

(** X11.  receive_client_ack.cpp gives every delivery exactly one
    disposition: accept when the body is a string, reject when reading it
    throws. *)
Lemma client_ack_one_disposition (msg : message) :
  exists d, ReceiveClientAck.on_message msg = ([d], Ok tt) /\
            (d = accept <-> exists s, body msg = v_string s) /\
            (d = reject <-> get_string (body msg) = Raise "conversion_error").
Proof.
  unfold ReceiveClientAck.on_message.
  destruct (body msg) as [|b|z|s|s|s]; simpl;
    (eexists; split; [reflexivity|]); split; split;
    try discriminate; try reflexivity; eauto;
    intros [s' H]; discriminate.
Qed.

(** container_per_thread.cpp accepts every delivery whose body can be coerced
    to a string. *)
Lemma per_thread_accepts_strings (msg : message) (s : string)
    (h : ContainerPerThread.handler) :
  coerce_string (body msg) = Ok s ->
  snd (fst (ContainerPerThread.on_message msg h)) = [accept] /\
  snd (ContainerPerThread.on_message msg h) = Ok tt.
Proof.
  intros Hc. unfold ContainerPerThread.on_message. rewrite Hc. simpl. auto.
Qed.

(** C7 (defect in the code).  A delivery whose body is the integer 7 reaches
    on_message of container_per_thread.cpp, where auto_accept is off: [coerce]
    throws, the callback is left, and the delivery has been given neither an
    accept nor a reject.  receive_client_ack.cpp rejects the same message. *)
Theorem uncoercible_body_gets_no_disposition :
  ContainerPerThread.auto_accept ContainerPerThread.ro = false /\
  ContainerPerThread.on_message (mk_message (v_long 7) None)
    (ContainerPerThread.mk_handler 0 0) =
    (ContainerPerThread.mk_handler 1 0, [], Raise "conversion_error") /\
  ReceiveClientAck.on_message (mk_message (v_long 7) None) = ([reject], Ok tt).
Proof. repeat split. Qed.

End receivers.

(** ** server.cpp *)

Section server.
Import Server.

(** C9, counterexample.  A receiver link is opened for the address "bar": the
    server makes no call on the link, it closes the connection, and the error
    condition is the connection's. *)
Lemma invalid_address_closes_connection :
  on_receiver_open "bar" =
    [connection_close (mk_error_condition "Invalid address")] /\
  connection_open (after (on_receiver_open "bar") opened) = false /\
  link_error (after (on_receiver_open "bar") opened) = None.
Proof. vm_compute. repeat split. Qed.

(** C9, as amended.  When a peer attaches to any target address other than
    "foo", on_receiver_open makes one call: it closes the connection with the
    error condition "Invalid address".  The condition is the connection's, not
    the link's, and the connection does not stay open.  For "foo" it makes no
    call. *)
Theorem invalid_address_is_refused_by_closing_the_connection :
  forall address : string,
    address <> "foo" ->
    on_receiver_open address =
      [connection_close (mk_error_condition "Invalid address")] /\
    connection_open (after (on_receiver_open address) opened) = false /\
    connection_error (after (on_receiver_open address) opened) =
      Some (mk_error_condition "Invalid address") /\
    link_error (after (on_receiver_open address) opened) = None /\
    on_receiver_open "foo" = [].
Proof.
  intros address Hne. unfold on_receiver_open.
  rewrite bool_decide_eq_false_2 by exact Hne.
  repeat split.
Qed.

(** C9, witness: a peer attaches to "queue1". *)
Lemma invalid_address_is_refused_by_closing_the_connection_witness :
  on_receiver_open "queue1" =
    [connection_close (mk_error_condition "Invalid address")] /\
  connection_open (after (on_receiver_open "queue1") opened) = false /\
  connection_error (after (on_receiver_open "queue1") opened) =
    Some (mk_error_condition "Invalid address") /\
  link_error (after (on_receiver_open "queue1") opened) = None /\
  on_receiver_open "foo" = [].
Proof.
  apply (invalid_address_is_refused_by_closing_the_connection "queue1").
  discriminate.
Defined.

End server.

(** * Further properties *)

(** ** send_across_threads.cpp: the mutex, the wait and the work queue *)

Section send_across_threads_runs.
Import SendAcrossThreads SendAcrossThreadsRuns.

Ltac step_cases H :=
  match type of H with
  | step ?a _ = Some _ =>
      destruct a; simpl in H;
      unfold on_sender_open, on_sendable, on_error, run_closure, call_send,
        send, spurious_wake in H;
      repeat match type of H with
             | context [match ?x with _ => _ end] =>
                 destruct x eqn:?; try discriminate H
             end;
      injection H as <- <-
  end.

Lemma lock_owned_init : lock_owned init.
Proof. intros th H. discriminate. Qed.

Lemma wake_in_block (p : pc) :
  in_locked_block p = true -> wake p = p.
Proof. destruct p; simpl; congruence. Qed.

Lemma lock_owned_wake (s s' : state) :
  lock_owned s -> lock s' = lock s ->
  callers s' = callers s \/ callers s' = wake <$> callers s ->
  lock_owned s'.
Proof.
  intros Own Hl Hc th Hth. rewrite Hl in Hth.
  destruct (Own th Hth) as (t & p & -> & Hp & Hin).
  exists t, p. split; [reflexivity|]. split; [|exact Hin].
  destruct Hc as [-> | ->]; [exact Hp|].
  rewrite lookup_fmap, Hp. simpl. rewrite wake_in_block by exact Hin.
  reflexivity.
Qed.

Lemma lock_owned_acquire (s' : state) (c : gmap nat pc) (t : nat) (p : pc) :
  callers s' = <[t := p]> c -> in_locked_block p = true ->
  lock s' = Some (Foreground t) -> lock_owned s'.
Proof.
  intros Hc Hin Hl th Hth. exists t, p.
  rewrite Hc, lookup_insert_eq. split; [congruence | auto].
Qed.

(** Thread [t] moves without touching the mutex, and either stays inside the
    locked block or was not inside it. *)
Lemma lock_owned_move (s s' : state) (t : nat) (p : pc) :
  lock_owned s -> lock s' = lock s ->
  callers s' = <[t := p]> (callers s) ->
  in_locked_block p = true \/
  (forall p0, callers s !! t = Some p0 -> in_locked_block p0 = false) ->
  lock_owned s'.
Proof.
  intros Own Hl Hc Hcase th Hth. rewrite Hl in Hth.
  destruct (Own th Hth) as (t0 & p0 & -> & Hp0 & Hin0).
  destruct (decide (t = t0)) as [<-|Hne].
  - destruct Hcase as [Hin|Hout].
    + exists t, p. rewrite Hc, lookup_insert_eq. auto.
    + rewrite (Hout p0 Hp0) in Hin0. discriminate.
  - exists t0, p0. rewrite Hc, lookup_insert_ne by exact Hne. auto.
Qed.

Lemma can_call_outside_block (t : nat) (s : state) (p0 : pc) :
  can_call t s = true -> callers s !! t = Some p0 ->
  in_locked_block p0 = false.
Proof.
  unfold can_call. intros Hc Hp. rewrite Hp in Hc.
  destruct p0; try discriminate; reflexivity.
Qed.

Lemma lock_owned_step (a : action) (s s' : state) (evs : list event) :
  lock_owned s -> step a s = Some (s', evs) -> lock_owned s'.
Proof.
  intros Own Hstep.
  step_cases Hstep;
    try (intros th Hth; discriminate Hth);
    try (apply (lock_owned_wake s); simpl; auto; fail);
    try (eapply lock_owned_acquire; simpl; eauto; fail);
    try (eapply (lock_owned_move s); simpl; eauto; right;
         intros p0 Hp0;
         first [ eapply can_call_outside_block; eassumption
               | match goal with
                 | H : callers s !! _ = Some _ |- _ =>
                     rewrite H in Hp0; injection Hp0 as <-; reflexivity
                 end ]; fail).
Qed.

Lemma exec_lock_owned (sched : list action) :
  forall s s' : state, lock_owned s -> exec sched s = Some s' -> lock_owned s'.
Proof.
  induction sched as [|a sched IH]; intros s s' Own Hrun; simpl in Hrun.
  - injection Hrun as <-. exact Own.
  - destruct (step a s) as [[s1 evs]|] eqn:Hstep; [|discriminate].
    eapply IH; [|exact Hrun]. eapply lock_owned_step; eauto.
Qed.

(** X1.  In every state the handler can reach, the mutex is held exactly
    while a foreground thread is inside the locked block of [send] (testing
    the loop condition or about to call wait): such a thread owns the mutex,
    the owner of the mutex is such a thread, and so at most one thread is
    inside the block.  In particular a call that has returned or thrown, or
    that sits in wait(), does not hold the mutex, and no callback leaves it
    locked. *)
Theorem mutex_is_held_exactly_inside_the_block :
  forall (sched : list action) (s : state),
    exec sched init = Some s ->
    (forall t p, callers s !! t = Some p -> in_locked_block p = true ->
                 lock s = Some (Foreground t)) /\
    (forall th, lock s = Some th ->
       exists t p, th = Foreground t /\ callers s !! t = Some p /\
                   in_locked_block p = true) /\
    (forall t1 t2 p1 p2,
        callers s !! t1 = Some p1 -> in_locked_block p1 = true ->
        callers s !! t2 = Some p2 -> in_locked_block p2 = true ->
        t1 = t2).
Proof.
  intros sched s Hrun.
  pose proof (exec_lock_inv sched init s lock_inv_init Hrun) as Inv.
  pose proof (exec_lock_owned sched init s lock_owned_init Hrun) as Own.
  split; [exact Inv|]. split; [exact Own|].
  intros t1 t2 p1 p2 H1 Hin1 H2 Hin2.
  pose proof (Inv t1 p1 H1 Hin1) as E1.
  pose proof (Inv t2 p2 H2 Hin2) as E2.
  congruence.
Qed.

(** X1, witness: thread 0 has taken the mutex while thread 1 has only
    called [send]. *)
Lemma mutex_is_held_exactly_inside_the_block_witness :
  (forall t p,
      callers (mk_state false None 0 false (Some (Foreground 0))
                 {[ 0 := AtWhile "a"; 1 := AtLock "b" ]} []) !! t = Some p ->
      in_locked_block p = true ->
      Some (Foreground 0) = Some (Foreground t)) /\
  (forall th, Some (Foreground 0) = Some th ->
     exists t p, th = Foreground t /\
       callers (mk_state false None 0 false (Some (Foreground 0))
                  {[ 0 := AtWhile "a"; 1 := AtLock "b" ]} []) !! t = Some p /\
       in_locked_block p = true) /\
  (forall t1 t2 p1 p2,
      callers (mk_state false None 0 false (Some (Foreground 0))
                 {[ 0 := AtWhile "a"; 1 := AtLock "b" ]} []) !! t1 = Some p1 ->
      in_locked_block p1 = true ->
      callers (mk_state false None 0 false (Some (Foreground 0))
                 {[ 0 := AtWhile "a"; 1 := AtLock "b" ]} []) !! t2 = Some p2 ->
      in_locked_block p2 = true ->
      t1 = t2).
Proof.
  apply (mutex_is_held_exactly_inside_the_block
           [CallSend 0 "a"; CallSend 1 "b"; Resume 0]
           (mk_state false None 0 false (Some (Foreground 0))
              {[ 0 := AtWhile "a"; 1 := AtLock "b" ]} [])).
  vm_compute. reflexivity.
Defined.

Lemma exec_log_exec (sched : list action) :
  forall s : state, fst <$> exec_log sched s = exec sched s.
Proof.
  induction sched as [|a sched IH]; intros s; simpl; [reflexivity|].
  destruct (step a s) as [[s1 evs]|]; [|reflexivity].
  rewrite <- IH. destruct (exec_log sched s1) as [[s2 log]|]; reflexivity.
Qed.

(** X3.  on_error can miss a caller.  A caller that has found the loop
    condition true and is about to call wait() still owns the mutex, so
    on_sendable and on_sender_open cannot run before it waits; on_error,
    which takes no lock, can: its notify_all finds nobody waiting, and the
    caller then blocks in wait() although [error_raised] is already true,
    with no move of its own left. *)
Theorem on_error_can_miss_a_caller :
  forall (sched : list action) (s : state) (t : nat) (m : string),
    exec sched init = Some s ->
    callers s !! t = Some (AtWait m) ->
    (forall c, step (OnSendable c) s = None) /\
    step OnSenderOpen s = None /\
    exists s1 s2,
      exec [OnError; Resume t] s = Some s2 /\
      step OnError s = Some (s1, [Write f_error_raised; NotifyAll]) /\
      callers s1 !! t = Some (AtWait m) /\
      callers s2 !! t = Some (Waiting m) /\
      error_raised s2 = true /\
      step (Resume t) s2 = None.
Proof.
  intros sched s t m Hrun Hpc.
  pose proof (exec_lock_inv sched init s lock_inv_init Hrun t _ Hpc eq_refl)
    as Hl.
  split; [|split].
  - intros c. simpl. unfold on_sendable. rewrite Hl. reflexivity.
  - simpl. unfold on_sender_open. rewrite Hl. reflexivity.
  - assert (callers (notify_all s) !! t = Some (AtWait m)) as Hpc1.
    { simpl. rewrite lookup_fmap, Hpc. reflexivity. }
    do 2 eexists. split; [|split; [reflexivity|]].
    + simpl. unfold send. simpl. rewrite lookup_fmap, Hpc. simpl. reflexivity.
    + split; [simpl; rewrite lookup_fmap, Hpc; reflexivity|].
      split; [simpl; rewrite lookup_insert_eq; reflexivity|].
      split; [reflexivity|].
      simpl. unfold send. simpl. rewrite lookup_insert_eq. reflexivity.
Qed.

(** X3, witness: the broker cannot be reached, so the work queue is never
    stored; thread 0 calls [send] and is about to wait. *)
Lemma on_error_can_miss_a_caller_witness :
  (forall c,
      step (OnSendable c)
        (mk_state false None 0 false (Some (Foreground 0))
           {[ 0 := AtWait "m" ]} []) = None) /\
  step OnSenderOpen
    (mk_state false None 0 false (Some (Foreground 0))
       {[ 0 := AtWait "m" ]} []) = None /\
  exists s1 s2,
    exec [OnError; Resume 0]
      (mk_state false None 0 false (Some (Foreground 0))
         {[ 0 := AtWait "m" ]} []) = Some s2 /\
    step OnError
      (mk_state false None 0 false (Some (Foreground 0))
         {[ 0 := AtWait "m" ]} []) =
      Some (s1, [Write f_error_raised; NotifyAll]) /\
    callers s1 !! 0 = Some (AtWait "m") /\
    callers s2 !! 0 = Some (Waiting "m") /\
    error_raised s2 = true /\
    step (Resume 0) s2 = None.
Proof.
  apply (on_error_can_miss_a_caller [CallSend 0 "m"; Resume 0; Resume 0]
           (mk_state false None 0 false (Some (Foreground 0))
              {[ 0 := AtWait "m" ]} []) 0 "m");
    vm_compute; reflexivity.
Defined.

Lemma loop_condition_after_error (s : state) :
  error_raised s = true -> loop_condition s = false.
Proof.
  intros He. unfold loop_condition. rewrite He.
  destruct (work_queue s); [reflexivity | apply andb_false_r].
Qed.

Lemma pcs_insert (P : pc -> Prop) (c : gmap nat pc) (t0 : nat) (p0 : pc) :
  (forall t p, c !! t = Some p -> P p) -> P p0 ->
  forall t p, <[t0 := p0]> c !! t = Some p -> P p.
Proof.
  intros Hc Hp0 t p Hp. destruct (decide (t0 = t)) as [<-|Hne].
  - rewrite lookup_insert_eq in Hp. injection Hp as <-. exact Hp0.
  - rewrite lookup_insert_ne in Hp by exact Hne. eapply Hc; eauto.
Qed.

Lemma pcs_wake (c : gmap nat pc) :
  (forall t p, c !! t = Some p -> at_wait p = false) ->
  forall t p, (wake <$> c) !! t = Some p -> at_wait p = false.
Proof.
  intros Hc t p Hp. rewrite lookup_fmap in Hp.
  destruct (c !! t) as [p0|] eqn:Hp0; [|discriminate].
  injection Hp as <-. pose proof (Hc t p0 Hp0) as H0.
  destruct p0; try discriminate H0; reflexivity.
Qed.

Lemma kept_insert (c : gmap nat pc) (t0 t : nat) (p0 q : pc) :
  p0 <> q -> <[t0 := p0]> c !! t = Some q -> c !! t = Some q.
Proof.
  intros Hne Hq. destruct (decide (t0 = t)) as [<-|Ht].
  - rewrite lookup_insert_eq in Hq. congruence.
  - rewrite lookup_insert_ne in Hq by exact Ht. exact Hq.
Qed.

Lemma kept_wake (c : gmap nat pc) (t : nat) (q : pc) :
  call_over q = true -> (wake <$> c) !! t = Some q -> c !! t = Some q.
Proof.
  intros Hq Hw. rewrite lookup_fmap in Hw.
  destruct (c !! t) as [p0|]; [|discriminate].
  injection Hw as <-. destruct p0; try discriminate Hq; reflexivity.
Qed.

(** After the error a step enqueues nothing, puts nobody into wait() and
    lets no call return or crash. *)
Lemma step_after_error (a : action) (s s' : state) (evs : list event) :
  error_raised s = true ->
  (forall t p, callers s !! t = Some p -> at_wait p = false) ->
  step a s = Some (s', evs) ->
  added evs = [] /\ error_raised s' = true /\
  (forall t p, callers s' !! t = Some p -> at_wait p = false) /\
  (forall t q, call_over q = true -> q <> Thrown ->
               callers s' !! t = Some q -> callers s !! t = Some q).
Proof.
  intros He Hpcs Hstep.
  pose proof (loop_condition_after_error s He) as Hloop.
  assert (forall t p, callers s !! t = Some p -> at_wait p = true -> False)
    as Hnot.
  { intros t p Hp Hw. rewrite (Hpcs t p Hp) in Hw. discriminate. }
  step_cases Hstep;
    try congruence;
    try (exfalso; eapply Hnot; [eassumption | reflexivity]);
    (split; [first [ reflexivity
                   | destruct (work_queue s);
                     [|destruct (current_sender_credit s =? 0)%Z];
                     reflexivity ]|]);
    (split; [simpl; congruence|]);
    simpl;
    (split;
     [ first [ exact Hpcs
             | apply pcs_wake; exact Hpcs
             | apply pcs_insert; [exact Hpcs | reflexivity] ]
     | intros t' q Hq Hne Hq';
       first [ exact Hq'
             | eapply kept_wake; eassumption
             | eapply kept_insert; [|exact Hq'];
               intros <-; first [discriminate Hq | congruence] ] ]).
Qed.

(** X4.  Once on_error has run with no call of [send] under way, the error
    is final for the threaded sender: whatever happens next, [error_raised]
    stays true, no closure is put on the work queue, no caller is ever in or
    about to enter wait(), and no call returns normally or runs into the null
    work queue.  Every call made after the error can only end by throwing. *)
Theorem after_an_error_send_only_throws :
  forall (sched : list action) (s s' : state) (log : list string),
    error_raised s = true ->
    no_call_under_way s ->
    exec_log sched s = Some (s', log) ->
    log = [] /\ error_raised s' = true /\
    (forall t p, callers s' !! t = Some p -> at_wait p = false) /\
    (forall t, callers s' !! t = Some Returned ->
               callers s !! t = Some Returned) /\
    (forall t, callers s' !! t = Some Crashed ->
               callers s !! t = Some Crashed).
Proof.
  intros sched s s' log He Hidle Hrun.
  assert (forall t p, callers s !! t = Some p -> at_wait p = false) as Hpcs.
  { intros t p Hp. pose proof (Hidle t p Hp) as H0.
    destruct p; try discriminate H0; reflexivity. }
  clear Hidle.
  enough (log = [] /\ error_raised s' = true /\
          (forall t p, callers s' !! t = Some p -> at_wait p = false) /\
          (forall t q, call_over q = true -> q <> Thrown ->
                       callers s' !! t = Some q -> callers s !! t = Some q))
    as (H1 & H2 & H3 & H4).
  { repeat split; try assumption.
    - intros t. apply H4; [reflexivity | discriminate].
    - intros t. apply H4; [reflexivity | discriminate]. }
  revert s s' log He Hpcs Hrun.
  induction sched as [|a sched IH]; intros s s' log He Hpcs Hrun;
    simpl in Hrun.
  - injection Hrun as <- <-. auto.
  - destruct (step a s) as [[s1 evs]|] eqn:Hstep; [|discriminate].
    destruct (exec_log sched s1) as [[s2 log2]|] eqn:Hrest; [|discriminate].
    injection Hrun as <- <-.
    destruct (step_after_error a s s1 evs He Hpcs Hstep)
      as (Hadd & He1 & Hpcs1 & Hkept1).
    destruct (IH s1 s2 log2 He1 Hpcs1 Hrest) as (Hlog & He2 & Hpcs2 & Hkept2).
    rewrite Hadd, Hlog. repeat split; auto.
Qed.

(** X4, witness: the broker is down, on_error has run, and thread 0 calls
    [send]: it throws. *)
Lemma after_an_error_send_only_throws_witness :
  [] = ([] : list string) /\ true = true /\
  (forall t p,
      callers (mk_state false None 0 true None {[ 0 := Thrown ]} []) !! t
        = Some p -> at_wait p = false) /\
  (forall t,
      callers (mk_state false None 0 true None {[ 0 := Thrown ]} []) !! t
        = Some Returned ->
      callers (mk_state false None 0 true None ∅ []) !! t = Some Returned) /\
  (forall t,
      callers (mk_state false None 0 true None {[ 0 := Thrown ]} []) !! t
        = Some Crashed ->
      callers (mk_state false None 0 true None ∅ []) !! t = Some Crashed).
Proof.
  apply (after_an_error_send_only_throws (send_alone 0 "m")
           (mk_state false None 0 true None ∅ [])
           (mk_state false None 0 true None {[ 0 := Thrown ]} []) []).
  - reflexivity.
  - intros t p H. simpl in H. rewrite lookup_empty in H. discriminate.
  - vm_compute. reflexivity.
Defined.

(** X5.  A caller blocked in wait() has no move of its own and cannot be
    called again; it stays blocked through every step except on_sendable,
    on_error and a spurious wake-up, each of which makes it retake the mutex
    and test the loop condition again.  on_sender_open, which stores the work
    queue the caller may be waiting for, does not notify it. *)
Theorem only_credit_or_error_wakes_a_waiter :
  forall (a : action) (s s' : state) (evs : list event) (t : nat) (m : string),
    callers s !! t = Some (Waiting m) ->
    step a s = Some (s', evs) ->
    (callers s' !! t = Some (Waiting m) /\
     a <> OnError /\ (forall c, a <> OnSendable c) /\ a <> SpuriousWake t) \/
    (callers s' !! t = Some (Notified m) /\
     (a = OnError \/ (exists c, a = OnSendable c) \/ a = SpuriousWake t)).
Proof.
  intros a s s' evs t m Hpc Hstep.
  destruct a as [| c | | | t' m' | t' | t']; simpl in Hstep.
  - left. unfold on_sender_open in Hstep. destruct (lock s); [discriminate|].
    injection Hstep as <- _. simpl.
    repeat split; try discriminate; auto.
  - right. unfold on_sendable in Hstep. destruct (lock s); [discriminate|].
    injection Hstep as <- _. simpl. rewrite lookup_fmap, Hpc. eauto.
  - right. unfold on_error in Hstep. injection Hstep as <- _. simpl.
    rewrite lookup_fmap, Hpc. eauto.
  - left. unfold run_closure in Hstep.
    destruct (work_queue s) as [[|[msg] q]|]; try discriminate.
    injection Hstep as <- _. simpl. repeat split; try discriminate; auto.
  - left. unfold call_send in Hstep.
    destruct (can_call t' s) eqn:Hc; [|discriminate].
    injection Hstep as <- _. simpl.
    assert (t' <> t) as Hne.
    { intros ->. unfold can_call in Hc. rewrite Hpc in Hc. discriminate. }
    rewrite lookup_insert_ne by exact Hne.
    repeat split; try discriminate; auto.
  - left.
    assert (t' <> t) as Hne.
    { intros ->. unfold send in Hstep. rewrite Hpc in Hstep. discriminate. }
    assert (callers s' !! t = Some (Waiting m)) as Hkeep.
    { unfold send in Hstep.
      repeat match type of Hstep with
             | context [match ?x with _ => _ end] =>
                 destruct x eqn:?; try discriminate Hstep
             end;
        injection Hstep as <- _; simpl;
        rewrite lookup_insert_ne by exact Hne; exact Hpc. }
    repeat split; try discriminate; auto.
  - unfold spurious_wake in Hstep.
    destruct (decide (t' = t)) as [->|Hne].
    + right. rewrite Hpc in Hstep. injection Hstep as <- _. simpl.
      rewrite lookup_insert_eq. auto.
    + left.
      destruct (callers s !! t') as [[k|k|k|k|k|k| | |]|]; try discriminate.
      injection Hstep as <- _. simpl.
      rewrite lookup_insert_ne by exact Hne.
      repeat split; try discriminate; auto. congruence.
Qed.

(** X5, witness: thread 0 waits for the work queue, and on_sender_open
    stores it. *)
Lemma only_credit_or_error_wakes_a_waiter_witness :
  (callers (mk_state true (Some []) 0 false None {[ 0 := Waiting "m" ]} [])
     !! 0 = Some (Waiting "m") /\
   OnSenderOpen <> OnError /\ (forall c, OnSenderOpen <> OnSendable c) /\
   OnSenderOpen <> SpuriousWake 0) \/
  (callers (mk_state true (Some []) 0 false None {[ 0 := Waiting "m" ]} [])
     !! 0 = Some (Notified "m") /\
   (OnSenderOpen = OnError \/ (exists c, OnSenderOpen = OnSendable c) \/
    OnSenderOpen = SpuriousWake 0)).
Proof.
  apply (only_credit_or_error_wakes_a_waiter OnSenderOpen
           (mk_state false None 0 false None {[ 0 := Waiting "m" ]} [])
           (mk_state true (Some []) 0 false None {[ 0 := Waiting "m" ]} [])
           [Acquire; Write f_sender; Write f_work_queue; Release] 0 "m");
    vm_compute; reflexivity.
Defined.

(** *** The recorded credit is never taken *)







End send_across_threads_runs.

(** ** send_lots.cpp, send_lots_tls.cpp, send_lots_leaky.cpp: on_sendable *)

Section logging_handler_runs.
Import Proton LoggingHandler LoggingHandlerRuns.

Lemma after_sending_none (msg : message) (w : world) :
  after_sending msg 0 w = w.
Proof.
  destruct w as [[s n c] [cr tr] cc acc]. unfold after_sending. simpl.
  rewrite Z.add_0_r, Z.sub_0_r, app_nil_r. reflexivity.
Qed.

Lemma after_sending_one_more (msg : message) (k : nat) (w : world) :
  (0 < credit (link w))%Z ->
  after_sending msg k
    (mk_world (mk_handler (sent (h w) + 1) (number_to_send (h w))
                 (closed (h w)))
       (send msg (link w)) (close_calls w) (accepted w)) =
  after_sending msg (S k) w.
Proof.
  intros Hc. rewrite (send_with_credit msg (link w) Hc).
  unfold after_sending. simpl.
  rewrite <- app_assoc. simpl.
  f_equal; [f_equal; lia | f_equal; lia].
Qed.

Lemma sending_exactly (has_credit : Z -> bool) (msg : message) :
  (forall c : Z, (0 <= c)%Z -> has_credit c = (0 <? c)%Z) ->
  forall (fuel : nat) (w : world),
    (0 <= credit (link w))%Z ->
    (number_to_send (h w) - sent (h w) <= Z.of_nat fuel)%Z ->
    sending has_credit msg fuel w = after_sending msg (can_send w) w.
Proof.
  intros Hspec fuel. induction fuel as [|k IH]; intros w Hpos Hfuel.
  - simpl. replace (can_send w) with 0%nat by (unfold can_send; lia).
    symmetry. apply after_sending_none.
  - simpl. rewrite Hspec by exact Hpos.
    destruct (Z.ltb_spec 0 (credit (link w))) as [Hc|Hc];
      destruct (Z.ltb_spec (sent (h w)) (number_to_send (h w))) as [Hs|Hs];
      simpl;
      try (replace (can_send w) with 0%nat by (unfold can_send; lia);
           symmetry; apply after_sending_none).
    rewrite IH by (rewrite ?(send_with_credit msg (link w) Hc); simpl; lia).
    replace (can_send w)
      with (S (can_send
                 (mk_world
                    (mk_handler (sent (h w) + 1) (number_to_send (h w))
                       (closed (h w)))
                    (send msg (link w)) (close_calls w) (accepted w))))
      by (rewrite (send_with_credit msg (link w) Hc);
          unfold can_send; simpl; lia).
    apply after_sending_one_more. exact Hc.
Qed.

Lemma on_sendable_twice (has_credit : Z -> bool) (msg : message) (w : world) :
  on_sendable has_credit msg (on_sendable has_credit msg w) =
  on_sendable has_credit msg w.
Proof.
  unfold on_sendable at 1. apply sending_stops.
  apply (on_sendable_exit has_credit msg w).
Qed.

(** X6.  One call of on_sendable sends exactly as many messages as the
    link's credit and the rest of the plan allow, the smaller of the two (none
    when the plan is complete or overrun): [sent] goes up and the credit goes
    down by that number, that many copies of the program's message are
    handed to the link, and nothing else changes.  This holds in the three
    programs for every credit that is not negative. *)
Theorem on_sendable_sends_what_credit_and_plan_allow :
  forall w : world,
    (0 <= credit (link w))%Z ->
    SendLots.on_sendable w = after_sending SendLots.msg (can_send w) w /\
    SendLotsTls.on_sendable w = after_sending SendLotsTls.msg (can_send w) w /\
    SendLotsLeaky.on_sendable w =
      after_sending SendLotsLeaky.msg (can_send w) w.
Proof.
  intros w Hpos.
  split; [|split].
  - apply (sending_exactly _ _ send_lots_has_credit); [exact Hpos | lia].
  - apply (sending_exactly _ _ send_lots_tls_has_credit); [exact Hpos | lia].
  - apply (sending_exactly _ _ send_lots_leaky_has_credit); [exact Hpos | lia].
Qed.

(** X6, witness: seven messages are left of a plan of ten and the link has
    credit for three. *)
Lemma on_sendable_sends_what_credit_and_plan_allow_witness :
  SendLots.on_sendable
    (mk_world (mk_handler 3 10 false) (mk_sender 3 []) 0 []) =
    after_sending SendLots.msg 3
      (mk_world (mk_handler 3 10 false) (mk_sender 3 []) 0 []) /\
  SendLotsTls.on_sendable
    (mk_world (mk_handler 3 10 false) (mk_sender 3 []) 0 []) =
    after_sending SendLotsTls.msg 3
      (mk_world (mk_handler 3 10 false) (mk_sender 3 []) 0 []) /\
  SendLotsLeaky.on_sendable
    (mk_world (mk_handler 3 10 false) (mk_sender 3 []) 0 []) =
    after_sending SendLotsLeaky.msg 3
      (mk_world (mk_handler 3 10 false) (mk_sender 3 []) 0 []).
Proof.
  apply (on_sendable_sends_what_credit_and_plan_allow
           (mk_world (mk_handler 3 10 false) (mk_sender 3 []) 0 [])).
  simpl. lia.
Defined.

(** X7.  on_sendable does all it can in one call: called again at once, with
    no flow in between, it sends nothing and changes nothing, in each of the
    three programs and from every state. *)
Theorem on_sendable_again_sends_nothing :
  forall w : world,
    SendLots.on_sendable (SendLots.on_sendable w) = SendLots.on_sendable w /\
    SendLotsTls.on_sendable (SendLotsTls.on_sendable w) =
      SendLotsTls.on_sendable w /\
    SendLotsLeaky.on_sendable (SendLotsLeaky.on_sendable w) =
      SendLotsLeaky.on_sendable w.
Proof.
  intros w. split; [|split]; apply on_sendable_twice.
Qed.

Lemma nothing_to_send (has_credit : Z -> bool) (msg : message) :
  (forall c : Z, (0 <= c)%Z -> has_credit c = (0 <? c)%Z) ->
  forall (n : Z) (evs : list sender_event),
    (n <= 0)%Z ->
    transfers (link (run has_credit msg evs (start n))) = [] /\
    sent (h (run has_credit msg evs (start n))) = 0%Z /\
    ((n < 0)%Z -> close_calls (run has_credit msg evs (start n)) = 0) /\
    (n = 0%Z ->
     forall i,
       close_calls
         (handle has_credit msg (TrackerAccept i)
            (run has_credit msg evs (start n))) = 1).
Proof.
  intros Hspec n evs Hn.
  destruct (run_from_start has_credit msg Hspec n evs)
    as [(Hc & Hpos & Hs & Hle) [Hcalls Hclosed]].
  pose proof (run_number_to_send has_credit msg evs (start n)) as HN.
  simpl in HN. rewrite HN in *.
  unfold sent_count in *.
  assert (sent (h (run has_credit msg evs (start n))) = 0%Z) as Hzero by lia.
  split; [|split; [exact Hzero|split]].
  - destruct (transfers (link (run has_credit msg evs (start n))));
      [reflexivity | simpl in *; lia].
  - intros Hneg. rewrite Hcalls.
    destruct (closed (h (run has_credit msg evs (start n)))); [|reflexivity].
    destruct (Hclosed eq_refl) as [Heq _]. lia.
  - intros -> i. simpl. unfold on_tracker_accept. rewrite Hzero, HN. simpl.
    destruct (closed (h (run has_credit msg evs (start 0)))); simpl;
      rewrite Hcalls; reflexivity.
Qed.

(** X8.  A sender planned for no messages, or for a negative number of them,
    never sends anything and leaves [sent] at 0, whatever credit and
    callbacks come.  Planned for a negative number it never calls close();
    planned for none, [sent == number_to_send] holds from the start, so the
    first acceptance to arrive makes it close. *)
Theorem nothing_planned_nothing_sent :
  forall (n : Z) (evs : list sender_event),
    (n <= 0)%Z ->
    (transfers (link (SendLots.run evs (start n))) = [] /\
     sent (h (SendLots.run evs (start n))) = 0%Z /\
     ((n < 0)%Z -> close_calls (SendLots.run evs (start n)) = 0) /\
     (n = 0%Z ->
      forall i,
        close_calls
          (SendLots.handle (TrackerAccept i) (SendLots.run evs (start n)))
          = 1)) /\
    (transfers (link (SendLotsTls.run evs (start n))) = [] /\
     sent (h (SendLotsTls.run evs (start n))) = 0%Z /\
     ((n < 0)%Z -> close_calls (SendLotsTls.run evs (start n)) = 0) /\
     (n = 0%Z ->
      forall i,
        close_calls
          (SendLotsTls.handle (TrackerAccept i)
             (SendLotsTls.run evs (start n))) = 1)) /\
    (transfers (link (SendLotsLeaky.run evs (start n))) = [] /\
     sent (h (SendLotsLeaky.run evs (start n))) = 0%Z /\
     ((n < 0)%Z -> close_calls (SendLotsLeaky.run evs (start n)) = 0) /\
     (n = 0%Z ->
      forall i,
        close_calls
          (SendLotsLeaky.handle (TrackerAccept i)
             (SendLotsLeaky.run evs (start n))) = 1)).
Proof.
  intros n evs Hn. split; [|split].
  - apply (nothing_to_send _ _ send_lots_has_credit n evs Hn).
  - apply (nothing_to_send _ _ send_lots_tls_has_credit n evs Hn).
  - apply (nothing_to_send _ _ send_lots_leaky_has_credit n evs Hn).
Qed.

(** X8, witness: a sender planned for no messages is given credit for
    five and called. *)
Lemma nothing_planned_nothing_sent_witness :
  transfers (link (SendLots.run [Flow 5; Sendable] (start 0))) = [] /\
  transfers (link (SendLotsTls.run [Flow 5; Sendable] (start 0))) = [] /\
  transfers (link (SendLotsLeaky.run [Flow 5; Sendable] (start 0))) = [].
Proof.
  pose proof (nothing_planned_nothing_sent 0 [Flow 5; Sendable]
                ltac:(lia)) as (H1 & H2 & H3).
  exact (conj (proj1 H1) (conj (proj1 H2) (proj1 H3))).
Defined.

End logging_handler_runs.

(** ** The receivers that count their messages *)

Section receiving.
Import Cxx Receiving.

Lemma world_after_none (w : world) :
  mk_world (mk_handler (received (h w) + 0) (number_to_receive (h w))
              (closed (h w)))
           (requests w ++ []) = w.
Proof.
  destruct w as [[r n c] rq]. simpl.
  rewrite Z.add_0_r, app_nil_r. reflexivity.
Qed.

Lemma reached_none (r : Z) (n : Z) : reached r 0 n = false.
Proof.
  unfold reached.
  destruct (Z.ltb_spec r n); destruct (Z.leb_spec n (r + Z.of_nat 0));
    simpl; try reflexivity; lia.
Qed.

Lemma reached_step (r : Z) (k : nat) (n : Z) :
  reached r (S k) n = (r + 1 =? n)%Z || reached (r + 1) k n /\
  ((r + 1 =? n)%Z = true -> reached (r + 1) k n = false).
Proof.
  unfold reached.
  destruct (Z.eqb_spec (r + 1) n); destruct (Z.ltb_spec r n);
    destruct (Z.ltb_spec (r + 1) n);
    destruct (Z.leb_spec n (r + Z.of_nat (S k)));
    destruct (Z.leb_spec n (r + 1 + Z.of_nat k));
    simpl; split; try reflexivity; try discriminate; lia.
Qed.

(** A run of [k] deliveries that stays within the int: the count goes up by
    [k], and the request is made once if the planned number is passed. *)
Lemma deliver_counts (at_total : request) (k : nat) :
  forall w : world,
    (received (h w) + Z.of_nat k <= INT_MAX)%Z ->
    deliver at_total k w =
      Some (mk_world
              (mk_handler (received (h w) + Z.of_nat k)
                 (number_to_receive (h w)) (closed (h w)))
              (requests w ++
               if reached (received (h w)) k (number_to_receive (h w))
               then [at_total] else [])).
Proof.
  induction k as [|k IH]; intros w Hmax.
  - simpl. rewrite reached_none, world_after_none. reflexivity.
  - simpl. unfold on_message, incr.
    replace (received (h w) <? INT_MAX)%Z with true
      by (symmetry; apply Z.ltb_lt; lia).
    rewrite IH by (simpl; lia). simpl.
    destruct (reached_step (received (h w)) k (number_to_receive (h w)))
      as [Hstep Hexcl].
    rewrite Hstep.
    replace (received (h w) + 1 + Z.of_nat k)%Z
      with (received (h w) + Z.of_nat (S k))%Z by lia.
    destruct (received (h w) + 1 =? number_to_receive (h w))%Z.
    + rewrite (Hexcl eq_refl). simpl. rewrite app_nil_r. reflexivity.
    + reflexivity.
Qed.

(** X9.  A counting receiver makes its request exactly once, at the delivery
    that brings [received] to [number_to_receive], and never if that number
    is zero or negative; deliveries that arrive after it are counted and
    ignored.  The member [closed] is never set.  receive_lots.cpp and
    receive_selector.cpp ask for the connection to be closed,
    receive_lots_multiple_consumers.cpp, whose two receivers feed one
    counter, for the container to be stopped.  (For as many deliveries as an
    int can count.) *)
Theorem receiver_asks_once_at_the_planned_number :
  forall (n : Z) (k : nat),
    (Z.of_nat k <= INT_MAX)%Z ->
    ReceiveLots.deliver k (start n) =
      Some (mk_world (mk_handler (Z.of_nat k) n false)
              (if (0 <? n)%Z && (n <=? Z.of_nat k)%Z
               then [connection_close] else [])) /\
    ReceiveSelector.deliver k (start n) =
      Some (mk_world (mk_handler (Z.of_nat k) n false)
              (if (0 <? n)%Z && (n <=? Z.of_nat k)%Z
               then [connection_close] else [])) /\
    ReceiveLotsMultipleConsumers.deliver k (start n) =
      Some (mk_world (mk_handler (Z.of_nat k) n false)
              (if (0 <? n)%Z && (n <=? Z.of_nat k)%Z
               then [container_stop] else [])).
Proof.
  intros n k Hk.
  split; [|split];
    (unfold ReceiveLots.deliver, ReceiveSelector.deliver,
       ReceiveLotsMultipleConsumers.deliver;
     rewrite deliver_counts by (simpl; lia); reflexivity).
Qed.

(** X9, witness: twelve deliveries to a receiver planned for ten. *)
Lemma receiver_asks_once_at_the_planned_number_witness :
  ReceiveLots.deliver 12 (start 10) =
    Some (mk_world (mk_handler 12 10 false) [connection_close]) /\
  ReceiveSelector.deliver 12 (start 10) =
    Some (mk_world (mk_handler 12 10 false) [connection_close]) /\
  ReceiveLotsMultipleConsumers.deliver 12 (start 10) =
    Some (mk_world (mk_handler 12 10 false) [container_stop]).
Proof.
  apply (receiver_asks_once_at_the_planned_number 10 12).
  vm_compute. discriminate.
Defined.

End receiving.

Section multiple_connections.
Import Cxx Receiving ReceiveLotsMultipleConnections.

Lemma deliver_each_splits (ds : list connection) :
  forall w1 w2 a b : world,
    deliver (arrivals to_h1 ds) w1 = Some a ->
    deliver (arrivals to_h2 ds) w2 = Some b ->
    deliver_each ds (w1, w2) = Some (a, b).
Proof.
  induction ds as [|d ds IH]; intros w1 w2 a b H1 H2.
  - simpl in *. congruence.
  - destruct d; unfold arrivals in H1, H2; simpl in H1, H2; simpl.
    + unfold deliver in H1. simpl in H1. fold on_message in H1.
      destruct (on_message w1) as [w1'|]; [|discriminate].
      apply IH; assumption.
    + unfold deliver in H2. simpl in H2. fold on_message in H2.
      destruct (on_message w2) as [w2'|]; [|discriminate].
      apply IH; assumption.
Qed.

Lemma arrivals_le (c : connection) (ds : list connection) :
  arrivals c ds <= length ds.
Proof. unfold arrivals. apply List.filter_length_le. Qed.

(** X10.  In receive_lots_multiple_connections.cpp the two handlers count
    on their own: however the deliveries of the two connections interleave,
    each handler ends as if it had been given its own deliveries alone, and
    the container is asked to stop once for each handler whose own count has
    reached [total] - not when [total] messages have arrived in all. *)
Theorem each_connection_counts_its_own_messages :
  forall (total : Z) (ds : list connection),
    (Z.of_nat (length ds) <= INT_MAX)%Z ->
    exists w : world * world,
      deliver_each ds (start total, start total) = Some w /\
      deliver (arrivals to_h1 ds) (start total) = Some (fst w) /\
      deliver (arrivals to_h2 ds) (start total) = Some (snd w) /\
      stops w =
        (if reached 0 (arrivals to_h1 ds) total then 1 else 0) +
        (if reached 0 (arrivals to_h2 ds) total then 1 else 0).
Proof.
  intros total ds Hmax.
  pose proof (arrivals_le to_h1 ds) as Hle1.
  pose proof (arrivals_le to_h2 ds) as Hle2.
  pose proof (deliver_counts container_stop (arrivals to_h1 ds) (start total)
                ltac:(simpl; lia)) as H1.
  pose proof (deliver_counts container_stop (arrivals to_h2 ds) (start total)
                ltac:(simpl; lia)) as H2.
  fold deliver in H1, H2.
  eexists. split; [|split; [|split]].
  - apply deliver_each_splits; [exact H1 | exact H2].
  - exact H1.
  - exact H2.
  - unfold stops. simpl.
    destruct (reached 0 (arrivals to_h1 ds) total);
      destruct (reached 0 (arrivals to_h2 ds) total); reflexivity.
Qed.

(** X10, witness: two deliveries for "foo" and one for "bar", with [total]
    set to 2. *)
Lemma each_connection_counts_its_own_messages_witness :
  exists w : world * world,
    deliver_each [to_h1; to_h2; to_h1] (start 2, start 2) = Some w /\
    deliver (arrivals to_h1 [to_h1; to_h2; to_h1]) (start 2) = Some (fst w) /\
    deliver (arrivals to_h2 [to_h1; to_h2; to_h1]) (start 2) = Some (snd w) /\
    stops w =
      (if reached 0 (arrivals to_h1 [to_h1; to_h2; to_h1]) 2 then 1 else 0) +
      (if reached 0 (arrivals to_h2 [to_h1; to_h2; to_h1]) 2 then 1 else 0).
Proof.
  apply (each_connection_counts_its_own_messages 2 [to_h1; to_h2; to_h1]).
  vm_compute. discriminate.
Defined.

End multiple_connections.

(** ** container_per_thread.cpp and server.cpp *)

Section receivers_more.
Import Proton.

(** X12.  on_message of container_per_thread.cpp never rejects a delivery:
    [handle_message] always reports success, so a delivery is accepted when
    its body can be coerced to a string, and is otherwise left with no
    disposition because the exception of [coerce] leaves the callback. *)
Theorem per_thread_never_rejects :
  forall (msg : message) (h : ContainerPerThread.handler),
    (exists s, coerce_string (body msg) = Ok s /\
               snd (fst (ContainerPerThread.on_message msg h)) = [accept] /\
               snd (ContainerPerThread.on_message msg h) = Ok tt) \/
    (exists e, coerce_string (body msg) = Raise e /\
               snd (fst (ContainerPerThread.on_message msg h)) = [] /\
               snd (ContainerPerThread.on_message msg h) = Raise e).
Proof.
  intros msg h. unfold ContainerPerThread.on_message.
  destruct (coerce_string (body msg)) as [s|e]; simpl; eauto.
Qed.

End receivers_more.

Section server_session.
Import Server ServerSession.

Lemma run_closed (evs : list event) (ec : error_condition) :
  ec = mk_error_condition "Invalid address" ->
  run evs (mk_endpoints false false false None (Some ec)) =
  mk_endpoints false false false None (Some ec).
Proof.
  intros ->. induction evs as [|ev evs IH]; simpl; [reflexivity|].
  destruct ev as [address| |body]; simpl; try exact IH.
  unfold on_receiver_open. destruct (bool_decide (address = "foo")); exact IH.
Qed.

(** X13.  Over a whole connection to the server, the connection stays open
    exactly as long as every sender link the peer attaches has the target
    address "foo"; the first other address closes it for good, with the
    condition "Invalid address", and later events change nothing.  A peer
    that attaches as a consumer, or that sends messages, is never refused,
    and the server never puts an error on a link. *)
Theorem server_stays_open_while_addresses_are_foo :
  forall evs : list event,
    run evs opened =
      if forallb served evs
      then opened
      else mk_endpoints false false false None
             (Some (mk_error_condition "Invalid address")).
Proof.
  induction evs as [|ev evs IH]; [reflexivity|].
  simpl. destruct ev as [address| |body]; simpl; try exact IH.
  unfold on_receiver_open.
  destruct (bool_decide (address = "foo")); simpl; [exact IH|].
  apply run_closed. reflexivity.
Qed.

End server_session.
